(** * mtg-sdk-go: the card query builder and its paginated fetches

    A shallow embedding of [query.go]: the query map and its builder
    methods, the response decoder, and the three retrieval modes
    ([All], [Page]/[PageS], [Random]) over an explicit transport.

    Go strings are byte sequences and are modelled by [string]; Go's [int]
    is the 64-bit one and is modelled by [Z]. *)

From Stdlib Require Import ZArith Ascii String List.
From stdpp Require Import gmap strings list fin_maps sorting pretty.

(** ** Library functions the source calls *)

Module strings.

(** [strings.Split(s, sep)] for a one-byte separator, the only way the
    source calls it: the pieces of [s] between occurrences of [sep];
    the result always has at least one piece. *)
Fixpoint Split (s : string) (sep : ascii) : list string :=
  match s with
  | EmptyString => [EmptyString]
  | String c s' =>
      if Ascii.eqb c sep then EmptyString :: Split s' sep
      else match Split s' sep with
           | piece :: rest => String c piece :: rest
           | [] => [String c EmptyString]
           end
  end.

End strings.

Module regexp.

(** The fragment of Go's regular expressions that [linkRE] is written in:
    literal bytes and the greedy capture group over [.] repeated. *)
Inductive atom : Type :=
| Lit (c : ascii)
| DotStar.

Definition regexp := list atom.

Definition newline : ascii := ascii_of_nat 10.

(** [.] matches every character but the line feed. *)
Definition dot (c : ascii) : bool := negb (Ascii.eqb c newline).

(** The greedy group followed by the continuation [k]: the longest run of
    [.] characters after which [k] succeeds, as a backtracking matcher
    finds it. Returns the captured text and the result of [k]. *)
Fixpoint star {A} (k : string → option A) (s : string) : option (string * A) :=
  let stop := (λ r, (EmptyString, r)) <$> k s in
  match s with
  | String c s' =>
      if dot c then
        match star k s' with
        | Some (g, r) => Some (String c g, r)
        | None => stop
        end
      else stop
  | EmptyString => stop
  end.

(** Match [re] at the start of [s]: the matched text and the captures. *)
Fixpoint match_here (re : regexp) : string → option (string * list string) :=
  match re with
  | [] => λ _, Some (EmptyString, [])
  | Lit c :: re' => λ s,
      match s with
      | String a s' =>
          if Ascii.eqb a c then
            match match_here re' s' with
            | Some (w, caps) => Some (String a w, caps)
            | None => None
            end
          else None
      | EmptyString => None
      end
  | DotStar :: re' => λ s,
      match star (match_here re') s with
      | Some (g, (w, caps)) => Some (g +:+ w, g :: caps)
      | None => None
      end
  end.

(** [re.FindStringSubmatch(s)]: the leftmost match, as the whole matched
    text followed by the text of each group; [None] is Go's nil slice. *)
Fixpoint FindStringSubmatch (re : regexp) (s : string) : option (list string) :=
  match match_here re s with
  | Some (w, caps) => Some (w :: caps)
  | None =>
      match s with
      | String _ s' => FindStringSubmatch re s'
      | EmptyString => None
      end
  end.

Definition lits (s : string) : regexp := Lit <$> list_ascii_of_string s.

(** The number of groups of an expression. *)
Fixpoint groups (re : regexp) : nat :=
  match re with
  | [] => 0
  | Lit _ :: re' => groups re'
  | DotStar :: re' => S (groups re')
  end.

End regexp.

Definition queryURL : string := "https://api.magicthegathering.io/v1/".

Definition dquote : string := String (ascii_of_nat 34) EmptyString.

(** [linkRE]: the byte [<], a greedy group, the bytes [>; rel=] and a
    double quote, a second greedy group, a closing double quote. *)
Definition linkRE : regexp.regexp :=
  regexp.lits "<" ++ [regexp.DotStar] ++ regexp.lits ">; rel=" ++ regexp.lits dquote
    ++ [regexp.DotStar] ++ regexp.lits dquote.

Module strconv.

(** The two causes a [*strconv.NumError] carries. *)
Inductive cause : Type := ErrSyntax | ErrRange.

Global Instance cause_eq_dec : EqDecision cause.
Proof. solve_decision. Defined.

(** [strconv.Itoa]: the decimal text of an integer. *)
Definition Itoa (i : Z) : string := pretty i.

Definition is_digit (c : ascii) : bool :=
  (48 <=? N_of_ascii c)%N && (N_of_ascii c <=? 57)%N.

Definition digit (c : ascii) : Z := (Z.of_N (N_of_ascii c) - 48)%Z.

Definition maxUint64 : Z := (2 ^ 64 - 1)%Z.

(** The loop of [strconv.ParseUint] for base 10 and 64 bits, from the value
    [n] read so far: a byte that is not a digit is a syntax error; a digit
    that takes the value over the largest [uint64] is a range error, with
    that largest value. The first of the two that the loop meets ends it. *)
Fixpoint ParseUint_loop (n : Z) (s : string) : Z * option cause :=
  match s with
  | EmptyString => (n, None)
  | String c s' =>
      if is_digit c then
        if (maxUint64 / 10 + 1 <=? n)%Z then (maxUint64, Some ErrRange)
        else
          let n1 := (n * 10 + digit c)%Z in
          if (maxUint64 <? n1)%Z then (maxUint64, Some ErrRange)
          else ParseUint_loop n1 s'
      else (0%Z, Some ErrSyntax)
  end.

(** [strconv.ParseUint(s, 10, 64)] *)
Definition ParseUint (s : string) : Z * option cause :=
  match s with
  | EmptyString => (0%Z, Some ErrSyntax)
  | _ => ParseUint_loop 0 s
  end.

(** [strconv.ParseInt(s, 10, 0)] with a 64-bit [int]: an optional sign,
    then [ParseUint]; a syntax error gives 0, a value that does not fit
    gives the nearest bound and a range error. *)
Definition ParseInt (s : string) : Z * option cause :=
  match s with
  | EmptyString => (0%Z, Some ErrSyntax)
  | String c rest =>
      let neg := Ascii.eqb c "-" in
      let s' := if Ascii.eqb c "+" || neg then rest else s in
      let '(un, err) := ParseUint s' in
      match err with
      | Some ErrSyntax => (0%Z, Some ErrSyntax)
      | _ =>
          let cutoff := (2 ^ 63)%Z in
          if negb neg && (cutoff <=? un)%Z then ((cutoff - 1)%Z, Some ErrRange)
          else if neg && (cutoff <? un)%Z then ((- cutoff)%Z, Some ErrRange)
          else ((if neg then - un else un)%Z, None)
      end
  end.

(** The digits of the fast path of [strconv.Atoi]; [None] is a byte that
    is not a digit. *)
Fixpoint small (n : Z) (s : string) : option Z :=
  match s with
  | EmptyString => Some n
  | String ch s' => if is_digit ch then small (n * 10 + digit ch)%Z s' else None
  end.

(** [strconv.Atoi] on a 64-bit platform: the fast path for one to eighteen
    bytes, [ParseInt] for the others. The second component is the cause of
    the error, if any. *)
Definition Atoi (s : string) : Z * option cause :=
  let sLen := String.length s in
  if (0 <? sLen)%nat && (sLen <? 19)%nat then
    match s with
    | EmptyString => (0%Z, Some ErrSyntax)
    | String c rest =>
        let signed := Ascii.eqb c "-" || Ascii.eqb c "+" in
        let s' := if signed then rest else s in
        if (String.length s' <? 1)%nat then (0%Z, Some ErrSyntax)
        else
          match small 0 s' with
          | None => (0%Z, Some ErrSyntax)
          | Some n => ((if Ascii.eqb c "-" then - n else n)%Z, None)
          end
    end
  else ParseInt s.

End strconv.

(** Go's [error] values, by the call that produces them. [NumError] is
    [*strconv.NumError] with its [Func], [Num] and [Err] fields. *)
Inductive error : Type :=
| TransportError (msg : string)
| APIError (msg : string)
| ReadError (msg : string)
| DecodeError (msg : string)
| NumError (Func Num : string) (Err : strconv.cause).

Global Instance error_eq_dec : EqDecision error.
Proof. solve_decision. Defined.

(** [strconv.Atoi] as the source sees it: an [int] and an [error]. *)
Definition Atoi (s : string) : Z * option error :=
  let '(n, c) := strconv.Atoi s in (n, NumError "Atoi" s <$> c).

Module url.

(** Bytes that [url.QueryEscape] leaves as they are. *)
Definition unreserved (c : ascii) : bool :=
  let n := N_of_ascii c in
  ((97 <=? n) && (n <=? 122) || (65 <=? n) && (n <=? 90)
   || (48 <=? n) && (n <=? 57))%N
  || bool_decide (c ∈ ["-"; "_"; "."; "~"]%char).

Definition hex (n : N) : ascii :=
  nth (N.to_nat n) (list_ascii_of_string "0123456789ABCDEF") "0"%char.

(** [url.QueryEscape]: a space becomes [+], every byte that is not
    unreserved becomes [%XX]. *)
Fixpoint QueryEscape (s : string) : string :=
  match s with
  | EmptyString => EmptyString
  | String c s' =>
      if Ascii.eqb c " " then String "+" (QueryEscape s')
      else if unreserved c then String c (QueryEscape s')
      else String "%" (String (hex (N_of_ascii c / 16))
                         (String (hex (N_of_ascii c mod 16)) (QueryEscape s')))
  end.

(** [url.Values] is [map[string][]string]. *)
Abbreviation Values := (gmap string (list string)).

(** [v.Set(key, value)] replaces the values of [key] by the single [value]. *)
Definition Set_ (key value : string) (v : Values) : Values := <[key := [value]]> v.

(** The [key=value] pairs in the order [Encode] writes them: keys sorted,
    the values of one key in their order. *)
Definition pairs (v : Values) : list (string * string) :=
  flat_map (λ k, (λ x, (k, x)) <$> default [] (v !! k))
           (merge_sort String.le (fst <$> map_to_list v)).

(** [v.Encode()] *)
Definition Encode (v : Values) : string :=
  String.concat "&"
    ((λ kv, QueryEscape kv.1 +:+ "=" +:+ QueryEscape kv.2) <$> pairs v).

End url.

(** ** Slices and pointers *)

(** A Go slice, up to what the source can observe of it: [None] is the nil
    slice, [Some l] a non-nil slice with elements [l]. *)
Definition slice (A : Type) : Type := option (list A).

Definition elems {A} (s : slice A) : list A := default [] s.

Definition len {A} (s : slice A) : Z := Z.of_nat (length (elems s)).

(** [append(s, t...)]: [s] itself when [t] has no element, a slice holding
    the elements of both otherwise. *)
Definition append {A} (s t : slice A) : slice A :=
  match elems t with
  | [] => s
  | _ => Some (elems s ++ elems t)
  end.

(** A pointer [*T], up to aliasing: [None] is nil. *)
Definition ptr (A : Type) : Type := option A.

(** ** Data of the package *)

(** [http.Header] is [map[string][]string]; the nil header reads as the
    empty one. *)
Abbreviation http_Header := (gmap string (list string)).

(** A response body, by what [io.ReadAll] gets out of it: the bytes, and
    the error that ended the read if one did. *)
Record ReadCloser : Type := {
  bytes : string;
  readErr : option error;
}.

Definition ReadAll (reader : ReadCloser) : string * option error :=
  (bytes reader, readErr reader).

(** [http.Response], with the fields the package looks at. *)
Record Response : Type := {
  StatusCode : Z;
  Header : http_Header;
  Body : ReadCloser;
}.

(** Modelled from the spec: the [cardResponse] declaration is not in
    [query.go]. The decoder fills a structure with two optional slots, a
    single-record slot and a list-of-records slot; [decodeCards] uses them
    at the types [*Card] and [[]*Card]. *)
Record cardResponse (Card : Type) : Type := {
  cardResponse_Card : ptr Card;
  cardResponse_Cards : slice (ptr Card);
}.
Arguments cardResponse_Card {Card} _.
Arguments cardResponse_Cards {Card} _.

(** What the package is run against: the record type, the outside world
    with [http.Get], and the two helpers that are not in [query.go].
    [http_Get] answers a URL in a world and leaves a new world;
    [checkError] is nil for a response that is not an API error;
    [json_Unmarshal] decodes a body into a given structure. *)
Class Backend : Type := {
  Card : Type;
  World : Type;
  http_Get : World → string → World * (Response + error);
  checkError : Response → option error;
  json_Unmarshal : string → cardResponse Card → cardResponse Card * option error;
}.

(** A [query] is a Go map, a reference: [nilQuery], or the location of a
    map that [NewQuery] or [Copy] made. The store holds the maps made so
    far, none of them at [nilQuery]; a program has no reference to a
    location where no map was made. *)
Definition query : Type := positive.

Definition nilQuery : query := 1%positive.

Abbreviation store := (gmap query (gmap string string)).

(** The location of the next map: not [nilQuery], and not in the store. *)
Definition new (h : store) : query := fresh ({[ nilQuery ]} ∪ dom h).

(** Reading a map: the nil map reads as the empty one. *)
Definition entries (h : store) (q : query) : gmap string string := default ∅ (h !! q).

(** The state a call runs in: the maps of the program, the outside world,
    and the URLs requested so far (kept to count the fetches). *)
Record state `{Backend} : Type := {
  heap : store;
  world : World;
  requests : list string;
}.

(** How a call that loops can end: it returns, it panics, or it is still
    looping when the fuel is spent. *)
Inductive outcome (A : Type) : Type :=
| Returns (a : A)
| Panics
| Running.
Arguments Returns {A} a.
Arguments Panics {A}.
Arguments Running {A}.

(** ** The query builder *)

(** A column is a string. *)
Abbreviation cardColumn := string (only parsing).

(** The columns of a card. *)
Definition CardName : cardColumn := "name".
Definition CardLayout : cardColumn := "layout".
Definition CardCMC : cardColumn := "cmc".
Definition CardColors : cardColumn := "colors".
Definition CardColorIdentity : cardColumn := "colorIdentity".
Definition CardType : cardColumn := "type".
Definition CardSupertypes : cardColumn := "supertypes".
Definition CardTypes : cardColumn := "types".
Definition CardSubtypes : cardColumn := "subtypes".
Definition CardRarity : cardColumn := "rarity".
Definition CardSet : cardColumn := "set".
Definition CardSetName : cardColumn := "setName".
Definition CardText : cardColumn := "text".
Definition CardFlavor : cardColumn := "flavor".
Definition CardArtist : cardColumn := "artist".
Definition CardNumber : cardColumn := "number".
Definition CardPower : cardColumn := "power".
Definition CardToughness : cardColumn := "toughness".
Definition CardLoyalty : cardColumn := "loyalty".
Definition CardForeignName : cardColumn := "foreignName".
Definition CardLanguage : cardColumn := "language".
Definition CardGameFormat : cardColumn := "gameFormat".
Definition CardLegality : cardColumn := "legality".

(** [NewQuery] makes a new, empty map. *)
Definition NewQuery (h : store) : store * query :=
  let q := new h in (<[q := ∅]> h, q).

(** [q.Where(column, qry)]; [None] is the panic of an assignment to an
    entry of the nil map. *)
Definition Where (h : store) (q : query) (column : cardColumn) (qry : string)
  : option (store * query) :=
  match h !! q with
  | Some m => Some (<[q := <[column := qry]> m]> h, q)
  | None => None
  end.

(** [q.OrderBy(column)] *)
Definition OrderBy (h : store) (q : query) (column : cardColumn) : option (store * query) :=
  match h !! q with
  | Some m => Some (<[q := <["orderBy" := column]> m]> h, q)
  | None => None
  end.

(** [q.Copy()]: a new map, filled entry by entry from [q]. *)
Definition Copy (h : store) (q : query) : store * query :=
  let r := new h in
  (<[r := map_fold (λ k v r, <[k := v]> r) ∅ (entries h q)]> h, r).

(** ** Fetching *)

Section Fetch.
Context `{Backend}.

(** [decodeCards] *)
Definition decodeCards (reader : ReadCloser) : slice (ptr Card) * option error :=
  let '(asBytes, err) := ReadAll reader in
  match err with
  | Some e => (None, Some e)
  | None =>
      let zero := {| cardResponse_Card := None; cardResponse_Cards := None |} in
      let '(cardResp, err) := json_Unmarshal asBytes zero in
      match err with
      | Some e => (None, Some e)
      | None =>
          match cardResponse_Card cardResp with
          | Some c => (Some [Some c], None)
          | None => (cardResponse_Cards cardResp, None)
          end
      end
  end.

(** [fetchCards]; the request is added to [requests]. *)
Definition fetchCards (s : state) (url : string)
  : state * (slice (ptr Card) * http_Header * option error) :=
  let '(w, r) := http_Get (world s) url in
  let s' := {| heap := heap s; world := w; requests := requests s ++ [url] |} in
  match r with
  | inr err => (s', (None, ∅, Some err))
  | inl resp =>
      match checkError resp with
      | Some err => (s', (None, ∅, Some err))
      | None =>
          let '(cards, err) := decodeCards (Body resp) in
          match err with
          | Some e => (s', (None, ∅, Some e))
          | None => (s', (cards, Header resp, None))
          end
      end
  end.

(** The per-call parameters: every entry of the query, set one by one. *)
Definition queryVals (q : gmap string string) : url.Values :=
  map_fold (λ k v vals, url.Set_ k v vals) ∅ q.

(** One turn of the loop over the parts of a [Link] value. *)
Definition scan (nextURL link : string) : string :=
  match regexp.FindStringSubmatch linkRE link with
  | Some match_ =>
      if String.eqb (nth 2 match_ "") "next" then nth 1 match_ "" else nextURL
  | None => nextURL
  end.

(** The next URL an iteration of [All] leaves: empty, then overwritten
    by the parts of the first [Link] value; [None] is the panic of
    indexing an empty list of values. *)
Definition nextLink (header : http_Header) : option string :=
  match header !! "Link" with
  | Some linkH =>
      match linkH with
      | v :: _ => Some (foldl scan "" (strings.Split v ","))
      | [] => None
      end
  | None => Some ""
  end.

(** The loop of [All], run for at most [fuel] iterations. *)
Fixpoint drain (fuel : nat) (s : state) (nextURL : string) (allCards : slice (ptr Card))
  : state * outcome (slice (ptr Card) * option error) :=
  if decide (nextURL = "") then (s, Returns (allCards, None))
  else
    match fuel with
    | O => (s, Running)
    | S fuel' =>
        let '(s1, (cards, header, err)) := fetchCards s nextURL in
        match err with
        | Some e => (s1, Returns (None, Some e))
        | None =>
            match nextLink header with
            | None => (s1, Panics)
            | Some next => drain fuel' s1 next (append allCards cards)
            end
        end
    end.

(** [q.All()] *)
Definition All (fuel : nat) (s : state) (q : query)
  : state * outcome (slice (ptr Card) * option error) :=
  let nextURL := queryURL +:+ "cards?" +:+ url.Encode (queryVals (entries (heap s) q)) in
  drain fuel s nextURL None.

(** [q.PageS(pageNum, pageSize)] *)
Definition PageS (s : state) (q : query) (pageNum pageSize : Z)
  : state * (slice (ptr Card) * Z * option error) :=
  let vals := queryVals (entries (heap s) q) in
  let vals := url.Set_ "page" (strconv.Itoa pageNum) vals in
  let vals := url.Set_ "pageSize" (strconv.Itoa pageSize) vals in
  let url := queryURL +:+ "cards?" +:+ url.Encode vals in
  let '(s1, (cards, header, err)) := fetchCards s url in
  match err with
  | Some e => (s1, (None, 0%Z, Some e))
  | None =>
      let totalCardCount := len cards in
      match header !! "Total-Count" with
      | Some (t :: _) =>
          let '(totalCardCount, err) := Atoi t in
          match err with
          | Some e => (s1, (None, 0%Z, Some e))
          | None => (s1, (cards, totalCardCount, None))
          end
      | _ => (s1, (cards, totalCardCount, None))
      end
  end.

(** [q.Page(pageNum)] *)
Definition Page (s : state) (q : query) (pageNum : Z) :=
  PageS s q pageNum 100.

(** [q.Random(count)] *)
Definition Random (s : state) (q : query) (count : Z)
  : state * (slice (ptr Card) * option error) :=
  let vals := queryVals (entries (heap s) q) in
  let vals := url.Set_ "random" "true" vals in
  let vals := url.Set_ "pageSize" (strconv.Itoa count) vals in
  let url := queryURL +:+ "cards?" +:+ url.Encode vals in
  let '(s1, (cards, _, err)) := fetchCards s url in
  (s1, (cards, err)).

End Fetch.

(** ** Vocabulary of the properties *)

(** A mutation of the builder. *)
Inductive mutation : Type :=
| MWhere (column : cardColumn) (qry : string)
| MOrderBy (column : cardColumn).

Definition mutate (h : store) (q : query) (mu : mutation) : option (store * query) :=
  match mu with
  | MWhere column qry => Where h q column qry
  | MOrderBy column => OrderBy h q column
  end.

(** A sequence of mutations, each aimed at a query. *)
Fixpoint mutates (h : store) (ops : list (query * mutation)) : option store :=
  match ops with
  | [] => Some h
  | (q, mu) :: ops' =>
      match mutate h q mu with
      | Some (h', _) => mutates h' ops'
      | None => None
      end
  end.

(** What a mutation does to a parameter set. *)
Definition effect (mu : mutation) (m : gmap string string) : gmap string string :=
  match mu with
  | MWhere column qry => <[column := qry]> m
  | MOrderBy column => <["orderBy" := column]> m
  end.

(** The mutations of [ops] that are aimed at [q], applied in order. *)
Definition effects (q : query) (ops : list (query * mutation)) (m : gmap string string)
  : gmap string string :=
  foldl (λ m op, if decide (op.1 = q) then effect op.2 m else m) m ops.

(** The URL and relation of one part of a [Link] value, when it parses. *)
Definition linkEntry (link : string) : option (string * string) :=
  (λ match_, (nth 1 match_ "", nth 2 match_ "")) <$> regexp.FindStringSubmatch linkRE link.

(** The URL of a part that parses as an entry with relation [next]. *)
Definition nextEntry (link : string) : option string :=
  '(u, rel) ← linkEntry link; if decide (rel = "next") then Some u else None.

(** The URLs of the entries of a [Link] value whose relation is [next], in
    parse order. *)
Definition nextURLs (v : string) : list string :=
  omap nextEntry (strings.Split v ",").

(** The URL of the last [next] entry of the first [Link] value, if there is
    a [Link] header with such an entry. *)
Definition lastNext (header : http_Header) : option string :=
  match header !! "Link" with
  | Some (v :: _) => last (nextURLs v)
  | _ => None
  end.

(** The first [Link] value announces a non-empty next URL. *)
Definition continues (header : http_Header) : Prop :=
  ∃ u, lastNext header = Some u ∧ u ≠ "".

(** There is no [Link] header, or its first value announces no next URL or
    an empty one. *)
Definition stops (header : http_Header) : Prop :=
  header !! "Link" = None
  ∨ ∃ v vs, header !! "Link" = Some (v :: vs) ∧ default "" (last (nextURLs v)) = "".

(** The parameters a query holds, as request parameters. *)
Definition params (m : gmap string string) : url.Values := (λ v, [v]) <$> m.

(** The request parameters of [PageS] and of [Random]. *)
Definition pageVals (m : gmap string string) (pageNum pageSize : Z) : url.Values :=
  <["pageSize" := [strconv.Itoa pageSize]]> (<["page" := [strconv.Itoa pageNum]]> (params m)).

Definition randomVals (m : gmap string string) (count : Z) : url.Values :=
  <["pageSize" := [strconv.Itoa count]]> (<["random" := ["true"]]> (params m)).

(** The URLs of the requests of [All] (the first one), [PageS] and [Random]. *)
Definition firstURL (m : gmap string string) : string :=
  queryURL +:+ "cards?" +:+ url.Encode (params m).

Definition pageURL (m : gmap string string) (pageNum pageSize : Z) : string :=
  queryURL +:+ "cards?" +:+ url.Encode (pageVals m pageNum pageSize).

Definition randomURL (m : gmap string string) (count : Z) : string :=
  queryURL +:+ "cards?" +:+ url.Encode (randomVals m count).

Section Served.
Context `{Backend}.

Definition page : Type := slice (ptr Card) * http_Header.

(** From state [s], the successive fetches that start at URL [u] and
    follow the announced next URLs are answered with [pages], without
    error; they leave state [s'] and the next URL [u']. *)
Inductive served : state → string → list page → state → string → Prop :=
| served_nil s u : served s u [] s u
| served_cons s u cards header s1 rest s' u' :
    fetchCards s u = (s1, (cards, header, None)) →
    served s1 (default "" (lastNext header)) rest s' u' →
    served s u ((cards, header) :: rest) s' u'.

(** All the records of some pages, in page order. *)
Definition records (pages : list page) : list (ptr Card) :=
  concat ((λ p : page, elems p.1) <$> pages).

End Served.

(** *** Link values as they are written *)

(** The byte [c] occurs in [s]. *)
Fixpoint occurs (c : ascii) (s : string) : bool :=
  match s with
  | EmptyString => false
  | String a s' => Ascii.eqb a c || occurs c s'
  end.

(** No byte of [s] is a line feed. *)
Fixpoint one_line (s : string) : bool :=
  match s with
  | EmptyString => true
  | String a s' => regexp.dot a && one_line s'
  end.

(** An entry of a [Link] value: a URL and a relation name. *)
Definition entry : Type := string * string.

(** An entry as it is written: the URL in angle brackets, a semicolon and
    a space, then [rel=] and the relation name in double quotes. *)
Definition formatEntry (u rel : string) : string :=
  "<" +:+ u +:+ ">; rel=" +:+ dquote +:+ rel +:+ dquote.

(** A [Link] value as it is written: the entries, separated by a comma and
    a space. *)
Definition formatLink (es : list entry) : string :=
  String.concat ", " ((λ e : entry, formatEntry e.1 e.2) <$> es).

(** A plain entry: the URL and the relation name are on one line and hold
    no comma; the relation name holds neither [>] nor a double quote. *)
Definition plain (e : entry) : Prop :=
  one_line e.1 ∧ occurs "," e.1 = false
  ∧ one_line e.2 ∧ occurs "," e.2 = false
  ∧ occurs ">" e.2 = false ∧ occurs (ascii_of_nat 34) e.2 = false.

(** The first [Link] value of [header] is the written form of the plain
    entries [es]. *)
Definition wellFormed (header : http_Header) (es : list entry) : Prop :=
  (∃ vs, header !! "Link" = Some (formatLink es :: vs)) ∧ Forall plain es.

(** The URL of the last of the entries whose relation is [next]. *)
Definition lastNextOf (es : list entry) : option string :=
  last (fst <$> filter (λ e : entry, e.2 = "next") es).

(** The first [Link] value of [header] is well formed and the URL of its
    last [next] entry is [u]. *)
Definition announces (header : http_Header) (u : string) : Prop :=
  ∃ es, wellFormed header es ∧ lastNextOf es = Some u.

(** [header] has no [Link] header, or a well-formed first [Link] value
    with no [next] entry or with an empty URL in the last one. *)
Definition final (header : http_Header) : Prop :=
  header !! "Link" = None
  ∨ ∃ es, wellFormed header es ∧ default "" (lastNextOf es) = "".

Section Answered.
Context `{Backend}.

(** From state [s], the requests to the URLs of [l], made in this order,
    are answered without error with the pages of [l]; they leave state
    [s']. *)
Inductive answered : state → list (string * page) → state → Prop :=
| answered_nil s : answered s [] s
| answered_cons s u cards header s1 rest s' :
    fetchCards s u = (s1, (cards, header, None)) →
    answered s1 rest s' →
    answered s ((u, (cards, header)) :: rest) s'.

(** Every page of [l] but the last announces the URL of the request that
    follows it, which is not empty; the last page is final. *)
Fixpoint linked (l : list (string * page)) : Prop :=
  match l with
  | [] => False
  | (_, p) :: rest =>
      match rest with
      | [] => final p.2
      | (u', _) :: _ => u' ≠ "" ∧ announces p.2 u' ∧ linked rest
      end
  end.

End Answered.

(** The state [s] with the store [h] in place of its own. *)
Definition with_heap `{Backend} (h : store) (s : state) : state :=
  {| heap := h; world := world s; requests := requests s |}.

(** ** A backend to run examples against *)

Module Mock.

(** Writes a double quote for every single one, to spell JSON bodies. *)
Fixpoint json (s : string) : string :=
  match s with
  | EmptyString => EmptyString
  | String c s' => String (if Ascii.eqb c "'" then ascii_of_nat 34 else c) (json s')
  end.

(** The bodies the examples use, with what [json.Unmarshal] makes of
    them: the fields it sets in a [cardResponse] whose records are card
    names. A field the body does not mention keeps its value. *)
Definition bodies : list (string * (cardResponse string → cardResponse string)) :=
  [ ("{}", λ r, r);
    (json "{'cards':[]}",
      λ r, {| cardResponse_Card := cardResponse_Card r; cardResponse_Cards := Some [] |});
    (json "{'cards':[{'name':'Opt'},{'name':'Shock'}]}",
      λ r, {| cardResponse_Card := cardResponse_Card r;
              cardResponse_Cards := Some [Some "Opt"; Some "Shock"] |});
    (json "{'cards':[{'name':'Duress'}]}",
      λ r, {| cardResponse_Card := cardResponse_Card r;
              cardResponse_Cards := Some [Some "Duress"] |});
    (json "{'card':{'name':'Opt'}}",
      λ r, {| cardResponse_Card := Some "Opt";
              cardResponse_Cards := cardResponse_Cards r |});
    (json "{'card':{'name':'Opt'},'cards':[{'name':'Shock'}]}",
      λ r, {| cardResponse_Card := Some "Opt";
              cardResponse_Cards := Some [Some "Shock"] |}) ].

(** Any other body is taken as malformed. *)
Definition Unmarshal (data : string) (r : cardResponse string)
  : cardResponse string * option error :=
  match list_find (λ b, b.1 = data) bodies with
  | Some (_, (_, set)) => (set r, None)
  | None => (r, Some (DecodeError "invalid character"))
  end.

(** A server is a table from URLs to answers; a request does not change
    it, and a URL that is not in the table has no host to answer it. A
    status outside 200..299 is an API error. *)
Definition server : Type := list (string * (Response + error)).

Definition answer (w : server) (u : string) : Response + error :=
  match list_find (λ a, a.1 = u) w with
  | Some (_, (_, r)) => r
  | None => inr (TransportError "no such host")
  end.

Global Instance backend : Backend := {|
  Card := string;
  World := server;
  http_Get w u := (w, answer w u);
  checkError resp :=
    if bool_decide (200 ≤ StatusCode resp < 300)%Z then None
    else Some (APIError "status");
  json_Unmarshal := Unmarshal;
|}.

Definition ok (header : list (string * list string)) (body : string) : Response + error :=
  inl {| StatusCode := 200; Header := list_to_map header;
         Body := {| bytes := body; readErr := None |} |}.

(** A store with one query [q1], holding [m], and a state with that store. *)
Definition q1 : query := 2%positive.

Definition one_query (m : gmap string string) : store := {[ q1 := m ]}.

Definition start (m : gmap string string) (w : server) : state :=
  {| heap := one_query m; world := w; requests := [] |}.

Definition next (u : string) : string := json ("<" +:+ u +:+ ">; rel='next'").
Definition prev (u : string) : string := json ("<" +:+ u +:+ ">; rel='prev'").

Definition page1 : string := json "{'cards':[{'name':'Opt'},{'name':'Shock'}]}".
Definition page2 : string := json "{'cards':[]}".
Definition page3 : string := json "{'cards':[{'name':'Duress'}]}".

(** Three pages chained by next links. *)
Definition three_pages : server :=
  [ (firstURL ∅, ok [("Link", [next "https://h/p2"])] page1);
    ("https://h/p2",
      ok [("Link", [prev "https://h/p1" +:+ ", " +:+ next "https://h/p3"])] page2);
    ("https://h/p3", ok [("Total-Count", ["3"])] page3) ].

(** The second page cannot be fetched. *)
Definition broken_second : server :=
  [ (firstURL ∅, ok [("Link", [next "https://h/p2"])] page1);
    ("https://h/p2", inr (TransportError "connection reset")) ].

(** The first page carries a next entry with an empty URL. *)
Definition empty_next : server :=
  [ (firstURL ∅, ok [("Link", [next ""])] page1);
    ("", ok [] page3) ].

(** Every page announces the URL it was served at as the next one. *)
Definition endless : server :=
  [ (firstURL ∅, ok [("Link", [next (firstURL ∅)])] page3) ].

(** One page, served at [u] with the given headers. *)
Definition one_page (u : string) (header : list (string * list string)) (body : string)
  : server :=
  [ (u, ok header body) ].

End Mock.

(** ** The library functions on examples *)

Example Split_example : strings.Split "a,b,,c" "," = ["a"; "b"; ""; "c"].
Proof. reflexivity. Qed.

Example Split_empty : strings.Split "" "," = [""].
Proof. reflexivity. Qed.

Example linkRE_example :
  regexp.FindStringSubmatch linkRE (Mock.next "https://h/p2")
  = Some [Mock.next "https://h/p2"; "https://h/p2"; "next"].
Proof. vm_compute. reflexivity. Qed.

(** Both groups are greedy: the first one runs up to the last [>; rel=]
    of the part, the second one up to its last double quote. *)
Example linkRE_greedy :
  regexp.FindStringSubmatch linkRE
    (Mock.json " <a>; rel='prev' <b>; rel='next'; title='z'")
  = Some [Mock.json "<a>; rel='prev' <b>; rel='next'; title='z'";
          Mock.json "a>; rel='prev' <b"; Mock.json "next'; title='z"].
Proof. vm_compute. reflexivity. Qed.

Example Atoi_examples :
  Atoi "731" = (731%Z, None)
  ∧ Atoi "-007" = ((-7)%Z, None)
  ∧ Atoi "+5" = (5%Z, None)
  ∧ Atoi "" = (0%Z, Some (NumError "Atoi" "" strconv.ErrSyntax))
  ∧ Atoi " 5" = (0%Z, Some (NumError "Atoi" " 5" strconv.ErrSyntax))
  ∧ Atoi "9223372036854775808"
    = (9223372036854775807%Z, Some (NumError "Atoi" "9223372036854775808" strconv.ErrRange)).
Proof. repeat split. Qed.

(** A value that overflows before a byte that is not a digit is out of
    range; one that does not is a syntax error. *)
Example Atoi_first_failure :
  Atoi "99999999999999999999x"
  = (9223372036854775807%Z, Some (NumError "Atoi" "99999999999999999999x" strconv.ErrRange))
  ∧ Atoi "9999999999999999999x"
    = (0%Z, Some (NumError "Atoi" "9999999999999999999x" strconv.ErrSyntax)).
Proof. split; vm_compute; reflexivity. Qed.

Example Encode_example :
  pageURL (<["rarity" := "Rare"]> {[ "set" := "KLD" ]}) 1 100
  = "https://api.magicthegathering.io/v1/cards?page=1&pageSize=100&rarity=Rare&set=KLD".
Proof. vm_compute. reflexivity. Qed.

Example QueryEscape_example : url.QueryEscape "Jace, the Mind Sculptor" = "Jace%2C+the+Mind+Sculptor".
Proof. reflexivity. Qed.

(** A match of [linkRE] always has the whole match and the two groups, so
    the indices 1 and 2 the source reads are in range. *)
Lemma star_length {A} (k : string → option A) (P : A → Prop) :
  (∀ s r, k s = Some r → P r) → ∀ s g r, regexp.star k s = Some (g, r) → P r.
Proof.
  intros Hk s. induction s as [|c s IH]; intros g r; simpl.
  - destruct (k "") eqn:Hk0; simpl; [|done]. intros [= <- <-]. eauto.
  - destruct (regexp.dot c).
    + destruct (regexp.star k s) as [[g' r']|] eqn:Hs.
      * intros [= <- <-]. eauto.
      * destruct (k (String c s)) eqn:Hk0; simpl; [|done]. intros [= <- <-]. eauto.
    + destruct (k (String c s)) eqn:Hk0; simpl; [|done]. intros [= <- <-]. eauto.
Qed.

Lemma match_here_groups re : ∀ s w caps,
  regexp.match_here re s = Some (w, caps) → length caps = regexp.groups re.
Proof.
  induction re as [|[c|] re IH]; intros s w caps; simpl.
  - by intros [= <- <-].
  - destruct s as [|a s]; [done|]. destruct (Ascii.eqb a c); [|done].
    destruct (regexp.match_here re s) as [[w' caps']|] eqn:Hm; [|done].
    intros [= <- <-]. eauto.
  - destruct (regexp.star (regexp.match_here re) s) as [[g [w' caps']]|] eqn:Hs; [|done].
    intros [= <- <-]. simpl. f_equal.
    apply (star_length _ (λ r, length r.2 = regexp.groups re)) in Hs; [done|].
    intros s' [w'' caps''] Hm. eauto.
Qed.

Lemma FindStringSubmatch_length re : ∀ s m,
  regexp.FindStringSubmatch re s = Some m → length m = S (regexp.groups re).
Proof.
  intros s. induction s as [|c s IH]; intros m; simpl.
  - destruct (regexp.match_here re "") as [[w caps]|] eqn:Hm; [|done].
    intros [= <-]. simpl. f_equal. by eapply match_here_groups.
  - destruct (regexp.match_here re (String c s)) as [[w caps]|] eqn:Hm; [|by auto].
    intros [= <-]. simpl. f_equal. by eapply match_here_groups.
Qed.

Lemma linkRE_match_length s m :
  regexp.FindStringSubmatch linkRE s = Some m → length m = 3.
Proof. apply FindStringSubmatch_length. Qed.

(** ** Lemmas on the library functions and the loops over maps *)

Lemma copy_loop (m : gmap string string) :
  map_fold (λ k v r, <[k := v]> r) ∅ m = m.
Proof.
  apply (map_fold_weak_ind (λ r m, r = m)); [done|].
  by intros k v m' r _ ->.
Qed.

Lemma queryVals_fmap `{Backend} (m : gmap string string) :
  queryVals m = (λ v, [v]) <$> m.
Proof.
  unfold queryVals.
  apply (map_fold_weak_ind (λ r m, r = (λ v, [v]) <$> m)).
  - by rewrite fmap_empty.
  - intros k v m' r _ ->. unfold url.Set_. by rewrite fmap_insert.
Qed.

Lemma elem_of_pairs (v : url.Values) k x :
  (k, x) ∈ url.pairs v ↔ ∃ l, v !! k = Some l ∧ x ∈ l.
Proof.
  unfold url.pairs. rewrite list_elem_of_In, in_flat_map. split.
  - intros (k' & _ & Hin). apply list_elem_of_In, list_elem_of_fmap in Hin.
    destruct Hin as (y & Heq & Hy). simplify_eq.
    destruct (v !! k') as [l|]; simpl in Hy; [by eauto|]. by apply elem_of_nil in Hy.
  - intros (l & Hl & Hx). exists k. split.
    + apply list_elem_of_In. rewrite merge_sort_Permutation.
      apply list_elem_of_fmap. exists (k, l). split; [done|].
      by apply elem_of_map_to_list.
    + apply list_elem_of_In, list_elem_of_fmap. exists x. by rewrite Hl.
Qed.

Lemma filter_key_absent {A} (l : list (string * A)) k :
  k ∉ l.*1 → filter (λ kv, kv.1 = k) l = [].
Proof.
  induction l as [|[k' x'] l IH]; intros Hk; [done|].
  rewrite fmap_cons, not_elem_of_cons in Hk. destruct Hk as [Hne Hk]. simpl in Hne.
  rewrite filter_cons. simpl. rewrite decide_False by done. auto.
Qed.

Lemma filter_key_unique {A} (l : list (string * A)) k x :
  NoDup l.*1 → (k, x) ∈ l → filter (λ kv, kv.1 = k) l = [(k, x)].
Proof.
  induction l as [|[k' x'] l IH]; intros Hnd Hin; [by apply elem_of_nil in Hin|].
  rewrite fmap_cons in Hnd. apply NoDup_cons in Hnd as [Hk' Hnd]. simpl in Hk'.
  rewrite filter_cons. simpl. apply elem_of_cons in Hin as [[= <- <-]|Hin].
  - rewrite decide_True by done. f_equal. by apply filter_key_absent.
  - rewrite decide_False; [by apply IH|].
    intros ->. apply Hk'. apply list_elem_of_fmap. by exists (k, x).
Qed.

(** ** The scan of a [Link] value *)

Lemma scan_nextEntry `{Backend} acc link :
  scan acc link = default acc (nextEntry link).
Proof.
  unfold scan, nextEntry, linkEntry.
  destruct (regexp.FindStringSubmatch linkRE link) as [m|]; simpl; [|done].
  destruct (String.eqb_spec (nth 2 m "") "next") as [Heq|Hne].
  - by rewrite decide_True.
  - by rewrite decide_False.
Qed.

Lemma foldl_scan `{Backend} parts acc :
  foldl scan acc parts = default acc (last (omap nextEntry parts)).
Proof.
  revert acc. induction parts as [|link parts IH]; intros acc; [done|].
  cbn [foldl]. rewrite IH, scan_nextEntry.
  change (omap nextEntry (link :: parts))
    with (match nextEntry link with
          | Some u => u :: omap nextEntry parts
          | None => omap nextEntry parts
          end).
  destruct (nextEntry link) as [u|]; simpl; [|done].
  rewrite last_cons. by destruct (last _).
Qed.

Lemma nextLink_first `{Backend} header v vs :
  header !! "Link" = Some (v :: vs) →
  nextLink header = Some (default "" (last (nextURLs v))).
Proof. intros Hl. unfold nextLink. rewrite Hl. by rewrite foldl_scan. Qed.

Lemma nextLink_absent `{Backend} header :
  header !! "Link" = None → nextLink header = Some "".
Proof. intros Hl. unfold nextLink. by rewrite Hl. Qed.

Lemma nextLink_continues `{Backend} header :
  continues header → nextLink header = Some (default "" (lastNext header)).
Proof.
  intros (u & Hu & _). unfold lastNext in *.
  destruct (header !! "Link") as [[|v vs]|] eqn:Hl; try done.
  by rewrite (nextLink_first _ v vs).
Qed.

Lemma nextLink_stops `{Backend} header : stops header → nextLink header = Some "".
Proof.
  intros [Hl|(v & vs & Hl & Hv)]; [by apply nextLink_absent|].
  by rewrite (nextLink_first _ v vs), Hv.
Qed.

(** ** Link values as they are written and read back *)

Lemma occurs_app c s t : occurs c (s +:+ t) = occurs c s || occurs c t.
Proof.
  induction s as [|a s IH]; simpl; [done|]. rewrite IH. by destruct (Ascii.eqb a c).
Qed.

Lemma one_line_app s t : one_line (s +:+ t) = one_line s && one_line t.
Proof.
  induction s as [|a s IH]; simpl; [done|]. rewrite IH. by destruct (regexp.dot a).
Qed.

Lemma string_app_assoc (s t u : string) : (s +:+ t) +:+ u = s +:+ (t +:+ u).
Proof.
  induction s as [|a s IH]; [done|].
  change (String a ((s +:+ t) +:+ u) = String a (s +:+ (t +:+ u))). by rewrite IH.
Qed.

Lemma string_app_nil_r (s : string) : s +:+ "" = s.
Proof.
  induction s as [|a s IH]; [done|].
  change (String a (s +:+ "") = String a s). by rewrite IH.
Qed.

(** What a successful greedy group took, and what it left to its
    continuation. *)
Lemma star_inv {A} (k : string → option A) s g r :
  regexp.star k s = Some (g, r) → ∃ t, s = g +:+ t ∧ one_line g ∧ k t = Some r.
Proof.
  revert g r. induction s as [|c s IH]; intros g r; simpl.
  - destruct (k "") eqn:Hk; simpl; [|done]. intros [= <- <-]. by exists "".
  - destruct (regexp.dot c) eqn:Hc.
    + destruct (regexp.star k s) as [[g' r']|] eqn:Hs.
      * intros [= <- <-]. destruct (IH _ _ eq_refl) as (t & -> & Hg & Hk).
        exists t. simpl. by rewrite Hc.
      * destruct (k (String c s)) eqn:Hk; simpl; [|done]. intros [= <- <-].
        by exists (String c s).
    + destruct (k (String c s)) eqn:Hk; simpl; [|done]. intros [= <- <-].
      by exists (String c s).
Qed.

Lemma star_None {A} (k : string → option A) s :
  (∀ g t, s = g +:+ t → one_line g → k t = None) → regexp.star k s = None.
Proof.
  induction s as [|c s IH]; intros Hk; simpl.
  - by rewrite (Hk "" "").
  - rewrite (Hk "" (String c s)) by done. simpl.
    destruct (regexp.dot c) eqn:Hc; [|done].
    rewrite IH; [done|]. intros g t -> Hg.
    apply (Hk (String c g) t); [done|]. simpl. by rewrite Hc.
Qed.

(** The greedy group takes [g] when the continuation accepts what follows
    [g] and accepts nothing that follows a longer run. *)
Lemma star_Some {A} (k : string → option A) g t r :
  one_line g → k t = Some r →
  (∀ g' t', t = g' +:+ t' → g' ≠ "" → one_line g' → k t' = None) →
  regexp.star k (g +:+ t) = Some (g, r).
Proof.
  intros Hg Hk Hlong. induction g as [|c g IH].
  - change ("" +:+ t) with t.
    destruct t as [|c t]; simpl; [by rewrite Hk|]. rewrite Hk. simpl.
    destruct (regexp.dot c) eqn:Hc; [|done].
    rewrite star_None; [done|]. intros g' t' -> Hg'.
    apply (Hlong (String c g') t'); [done|done|]. simpl. by rewrite Hc.
  - simpl in Hg. apply andb_True in Hg as [Hc Hg].
    change (String c g +:+ t) with (String c (g +:+ t)). cbn [regexp.star].
    destruct (regexp.dot c); [|done]. by rewrite IH.
Qed.

Lemma match_lits l re s :
  regexp.match_here (regexp.lits l ++ re) (l +:+ s)
  = (λ m, (l +:+ m.1, m.2)) <$> regexp.match_here re s.
Proof.
  induction l as [|c l IH].
  - change ("" +:+ s) with s. simpl.
    by destruct (regexp.match_here re s) as [[w caps]|].
  - change (String c l +:+ s) with (String c (l +:+ s)).
    change (regexp.lits (String c l) ++ re) with (regexp.Lit c :: (regexp.lits l ++ re)).
    cbn [regexp.match_here]. rewrite Ascii.eqb_refl, IH.
    by destruct (regexp.match_here re s) as [[w caps]|].
Qed.

Lemma match_Lit_absent c re s :
  occurs c s = false → regexp.match_here (regexp.Lit c :: re) s = None.
Proof.
  destruct s as [|a s]; simpl; [done|]. by destruct (Ascii.eqb a c).
Qed.

Lemma occurs_suffix c g t : occurs c (g +:+ t) = false → occurs c t = false.
Proof. rewrite occurs_app. by destruct (occurs c g). Qed.

(** A match needs every literal of the expression. *)
Lemma match_here_occurs re : ∀ s w caps c,
  regexp.match_here re s = Some (w, caps) → regexp.Lit c ∈ re → occurs c s = true.
Proof.
  induction re as [|[c'|] re IH]; intros s w caps c; simpl.
  - intros _ Hin. by apply elem_of_nil in Hin.
  - destruct s as [|a s]; [done|]. destruct (Ascii.eqb_spec a c') as [->|Hne]; [|done].
    destruct (regexp.match_here re s) as [[w' caps']|] eqn:Hm; [|done].
    intros _ Hin. simpl. apply elem_of_cons in Hin as [[= ->]|Hin].
    + by rewrite Ascii.eqb_refl.
    + rewrite (IH _ _ _ _ Hm Hin). by destruct (Ascii.eqb c' c).
  - destruct (regexp.star (regexp.match_here re) s) as [[g [w' caps']]|] eqn:Hs; [|done].
    intros _ Hin. apply elem_of_cons in Hin as [[=]|Hin].
    apply star_inv in Hs as (t & -> & _ & Hm).
    rewrite occurs_app, (IH _ _ _ _ Hm Hin). by destruct (occurs c g).
Qed.

Lemma FindStringSubmatch_occurs re c : ∀ s,
  regexp.Lit c ∈ re → occurs c s = false → regexp.FindStringSubmatch re s = None.
Proof.
  intros s Hin. induction s as [|a s IH]; intros Hc; simpl.
  - destruct (regexp.match_here re "") as [[w caps]|] eqn:Hm; [|done].
    by rewrite (match_here_occurs _ _ _ _ _ Hm Hin) in Hc.
  - destruct (regexp.match_here re (String a s)) as [[w caps]|] eqn:Hm.
    + by rewrite (match_here_occurs _ _ _ _ _ Hm Hin) in Hc.
    + apply IH. simpl in Hc. by destruct (Ascii.eqb a c).
Qed.

Lemma FindStringSubmatch_skip c re p s :
  occurs c p = false →
  regexp.FindStringSubmatch (regexp.Lit c :: re) (p +:+ s)
  = regexp.FindStringSubmatch (regexp.Lit c :: re) s.
Proof.
  induction p as [|a p IH]; intros Hp; [done|].
  simpl in Hp. destruct (Ascii.eqb a c) eqn:Ha; [done|].
  change (String a p +:+ s) with (String a (p +:+ s)).
  cbn [regexp.FindStringSubmatch regexp.match_here]. rewrite Ha. by apply IH.
Qed.

Lemma split_nonempty (a : ascii) (t g' t' : string) :
  String a t = g' +:+ t' → g' ≠ "" → ∃ g'', t = g'' +:+ t'.
Proof.
  destruct g' as [|b g'']; [done|]. intros [= _ ->] _. by exists g''.
Qed.

Lemma closing_quote z :
  occurs (ascii_of_nat 34) z = false →
  regexp.match_here (regexp.lits dquote) (dquote +:+ z) = Some (dquote, [])
  ∧ ∀ g' t', dquote +:+ z = g' +:+ t' → g' ≠ "" →
      regexp.match_here (regexp.lits dquote) t' = None.
Proof.
  intros Hz. split.
  - rewrite <- (app_nil_r (regexp.lits dquote)), match_lits. done.
  - intros g' t' Heq Hg'. destruct (split_nonempty _ _ _ _ Heq Hg') as [g'' ->].
    apply match_Lit_absent. by apply occurs_suffix in Hz.
Qed.

Lemma second_group r z :
  one_line r → occurs (ascii_of_nat 34) z = false →
  regexp.match_here ([regexp.DotStar] ++ regexp.lits dquote) (r +:+ dquote +:+ z)
  = Some (r +:+ dquote, [r]).
Proof.
  intros Hr Hz. destruct (closing_quote z Hz) as [Hq Hlong].
  cbn [app regexp.match_here].
  rewrite (star_Some _ r (dquote +:+ z) (dquote, [])); [done|done|done|].
  intros g' t' Heq Hg' _. by apply Hlong with g'.
Qed.

(** An entry as it is written is matched whole, with its URL and its
    relation as the two groups; text after it that holds neither [>] nor a
    double quote is left out of the match. *)
Lemma linkRE_entry u r z :
  one_line u → one_line r → occurs ">" r = false →
  occurs ">" z = false → occurs (ascii_of_nat 34) z = false →
  regexp.match_here linkRE (formatEntry u r +:+ z) = Some (formatEntry u r, [u; r]).
Proof.
  intros Hu Hr Hgt Hzgt Hzq.
  set (re1 := regexp.lits ">; rel=" ++ regexp.lits dquote
                ++ [regexp.DotStar] ++ regexp.lits dquote).
  set (t1 := ">; rel=" +:+ dquote +:+ r +:+ dquote +:+ z).
  assert (regexp.match_here re1 t1 = Some (">; rel=" +:+ dquote +:+ r +:+ dquote, [r])) as Hk1.
  { unfold re1, t1. rewrite !match_lits, second_group by done. done. }
  assert (∀ g' t', t1 = g' +:+ t' → g' ≠ "" → regexp.match_here re1 t' = None) as Hlong.
  { intros g' t' Heq Hg'. destruct (split_nonempty _ _ _ _ Heq Hg') as [g'' Heq'].
    assert (occurs ">" ("; rel=" +:+ dquote +:+ r +:+ dquote +:+ z) = false) as Htail.
    { rewrite !occurs_app, Hgt, Hzgt. done. }
    apply (match_Lit_absent ">"). apply (occurs_suffix _ g''). by rewrite <- Heq'. }
  replace (formatEntry u r +:+ z) with ("<" +:+ u +:+ t1).
  2:{ unfold formatEntry, t1. rewrite !string_app_assoc. done. }
  unfold linkRE. rewrite match_lits. fold re1. cbn [app regexp.match_here].
  rewrite (star_Some _ u t1 _ Hu Hk1); [done|].
  intros g' t' Heq Hg' _. by apply Hlong with g'.
Qed.

Lemma FindStringSubmatch_here re s w caps :
  regexp.match_here re s = Some (w, caps) →
  regexp.FindStringSubmatch re s = Some (w :: caps).
Proof. intros Hm. destruct s; simpl; by rewrite Hm. Qed.

Lemma linkRE_skip p s :
  occurs "<" p = false →
  regexp.FindStringSubmatch linkRE (p +:+ s) = regexp.FindStringSubmatch linkRE s.
Proof. apply (FindStringSubmatch_skip "<"). Qed.

Lemma Split_cons s sep : ∃ piece rest, strings.Split s sep = piece :: rest.
Proof.
  induction s as [|c s (piece & rest & IH)]; simpl; [by eauto|].
  destruct (Ascii.eqb c sep); [by eauto|]. rewrite IH. eauto.
Qed.

Lemma Split_app a b sep :
  strings.Split (a +:+ String sep b) sep = strings.Split a sep ++ strings.Split b sep.
Proof.
  induction a as [|c a IH].
  - change ("" +:+ String sep b) with (String sep b). simpl. by rewrite Ascii.eqb_refl.
  - change (String c a +:+ String sep b) with (String c (a +:+ String sep b)).
    simpl. rewrite IH. destruct (Ascii.eqb c sep); [done|].
    by destruct (Split_cons a sep) as (piece & rest & ->).
Qed.

Lemma Split_absent a sep : occurs sep a = false → strings.Split a sep = [a].
Proof.
  induction a as [|c a IH]; simpl; [done|].
  destruct (Ascii.eqb c sep); [done|]. intros Ha. by rewrite IH.
Qed.

Lemma Split_pieces c s sep :
  occurs c s = false → Forall (λ piece, occurs c piece = false) (strings.Split s sep).
Proof.
  induction s as [|a s IH]; simpl; intros Hs.
  - by repeat constructor.
  - apply orb_false_iff in Hs as [Ha Hs]. specialize (IH Hs).
    destruct (Ascii.eqb a sep); [by constructor|].
    destruct (strings.Split s sep) as [|piece rest].
    { constructor; [|constructor]. simpl. by rewrite Ha. }
    apply Forall_cons in IH as [Hp Hrest]. constructor; [|done]. simpl. by rewrite Ha.
Qed.

Lemma linkEntry_written p u r z :
  occurs "<" p = false → one_line u → one_line r → occurs ">" r = false →
  occurs ">" z = false → occurs (ascii_of_nat 34) z = false →
  linkEntry (p +:+ formatEntry u r +:+ z) = Some (u, r).
Proof.
  intros Hp Hu Hr Hgt Hzgt Hzq. unfold linkEntry.
  rewrite linkRE_skip by done.
  by rewrite (FindStringSubmatch_here _ _ _ _ (linkRE_entry u r z Hu Hr Hgt Hzgt Hzq)).
Qed.

Lemma formatEntry_no_comma u r :
  occurs "," u = false → occurs "," r = false → occurs "," (formatEntry u r) = false.
Proof. intros Hu Hr. unfold formatEntry. by rewrite !occurs_app, Hu, Hr. Qed.

Lemma formatLink_cons e e' es :
  formatLink (e :: e' :: es) = formatEntry e.1 e.2 +:+ String "," (" " +:+ formatLink (e' :: es)).
Proof. done. Qed.

Lemma written_entries_read es : ∀ p,
  occurs "<" p = false → occurs "," p = false → es ≠ [] → Forall plain es →
  omap linkEntry (strings.Split (p +:+ formatLink es) ",") = es.
Proof.
  induction es as [|[u r] es IH]; intros p Hp Hpc Hne Hes; [done|].
  apply Forall_cons in Hes as [(Hu & Huc & Hr & Hrc & Hgt & Hq) Hes]. simpl in *.
  destruct es as [|e' es].
  - change (formatLink [(u, r)]) with (formatEntry u r).
    rewrite Split_absent by (by rewrite occurs_app, Hpc, formatEntry_no_comma).
    simpl. rewrite <- (string_app_nil_r (formatEntry u r)).
    by rewrite linkEntry_written.
  - rewrite formatLink_cons. cbn [fst snd].
    rewrite <- string_app_assoc, Split_app.
    rewrite Split_absent by (by rewrite occurs_app, Hpc, formatEntry_no_comma).
    cbn [app omap list_omap]. rewrite <- (string_app_nil_r (formatEntry u r)).
    rewrite linkEntry_written by done. f_equal. by apply IH.
Qed.

Lemma omap_cons_match {A B} (f : A → option B) x l :
  omap f (x :: l) = match f x with Some y => y :: omap f l | None => omap f l end.
Proof. done. Qed.

Lemma nextURLs_written es :
  Forall plain es → nextURLs (formatLink es) = fst <$> filter (λ e : entry, e.2 = "next") es.
Proof.
  intros Hes. unfold nextURLs.
  assert (∀ parts : list string, omap nextEntry parts
                   = omap (λ e : entry, if decide (e.2 = "next") then Some e.1 else None)
                          (omap linkEntry parts)) as Homap.
  { induction parts as [|part parts IH]; [done|].
    rewrite (omap_cons_match nextEntry), (omap_cons_match linkEntry), IH.
    unfold nextEntry. destruct (linkEntry part) as [[u rel]|]; [|done].
    rewrite omap_cons_match. simpl. by destruct (decide (rel = "next")). }
  rewrite Homap.
  assert (omap linkEntry (strings.Split (formatLink es) ",") = es) as ->.
  { destruct es as [|e es]; [done|].
    by apply (written_entries_read (e :: es) ""). }
  clear. induction es as [|[u rel] es IH]; [done|].
  rewrite omap_cons_match, filter_cons, IH. simpl.
  by destruct (decide (rel = "next")).
Qed.

Lemma nextLink_wellFormed `{Backend} header es :
  wellFormed header es → nextLink header = Some (default "" (lastNextOf es)).
Proof.
  intros [[vs Hl] Hes]. rewrite (nextLink_first _ _ vs Hl).
  by rewrite nextURLs_written.
Qed.

Lemma nextLink_announces `{Backend} header u :
  announces header u → nextLink header = Some u.
Proof. intros (es & Hwf & Hu). by rewrite (nextLink_wellFormed _ es), Hu. Qed.

Lemma nextLink_final `{Backend} header : final header → nextLink header = Some "".
Proof.
  intros [Hl|(es & Hwf & Hu)]; [by apply nextLink_absent|].
  by rewrite (nextLink_wellFormed _ es), Hu.
Qed.

(** ** One fetch *)

Lemma fetchCards_state `{Backend} s u :
  heap (fetchCards s u).1 = heap s ∧ requests (fetchCards s u).1 = requests s ++ [u].
Proof.
  unfold fetchCards. destruct (http_Get (world s) u) as [w [resp|e]]; [|done].
  destruct (checkError resp); [done|].
  destruct (decodeCards (Body resp)) as [cards [e|]]; done.
Qed.

Lemma fetchCards_error `{Backend} s u s1 cards header e :
  fetchCards s u = (s1, (cards, header, Some e)) → cards = None.
Proof.
  unfold fetchCards. destruct (http_Get (world s) u) as [w [resp|e']].
  - destruct (checkError resp); [congruence|].
    destruct (decodeCards (Body resp)) as [cards' [e'|]]; congruence.
  - congruence.
Qed.

(** ** The loop of [All] *)

Lemma drain_stop `{Backend} fuel s acc : drain fuel s "" acc = (s, Returns (acc, None)).
Proof. by destruct fuel. Qed.

Lemma drain_step `{Backend} fuel s u acc s1 cards header next :
  u ≠ "" →
  fetchCards s u = (s1, (cards, header, None)) →
  nextLink header = Some next →
  drain (S fuel) s u acc = drain fuel s1 next (append acc cards).
Proof.
  intros Hu Hf Hn. simpl. rewrite decide_False by done. by rewrite Hf, Hn.
Qed.

Lemma drain_error `{Backend} fuel s u acc s1 cards header e :
  u ≠ "" →
  fetchCards s u = (s1, (cards, header, Some e)) →
  drain (S fuel) s u acc = (s1, Returns (None, Some e)).
Proof. intros Hu Hf. simpl. rewrite decide_False by done. by rewrite Hf. Qed.

Lemma drain_heap `{Backend} fuel : ∀ s u acc, heap (drain fuel s u acc).1 = heap s.
Proof.
  induction fuel as [|fuel IH]; intros s u acc; simpl.
  - by destruct (decide (u = "")).
  - destruct (decide (u = "")); [done|].
    pose proof (fetchCards_state s u) as [Hh _].
    destruct (fetchCards s u) as [s1 [[cards header] [e|]]]; simpl in *; [done|].
    destruct (nextLink header); [|done]. by rewrite IH.
Qed.

Lemma firstURL_nonempty m : firstURL m ≠ "".
Proof. done. Qed.

Lemma served_app_inv `{Backend} l1 l2 : ∀ s u s' u',
  served s u (l1 ++ l2) s' u' →
  ∃ s1 u1, served s u l1 s1 u1 ∧ served s1 u1 l2 s' u'.
Proof.
  induction l1 as [|p l1 IH]; intros s u s' u' Hs; simpl in *.
  - exists s, u. split; [constructor|done].
  - inversion Hs as [|? ? cards header s1 rest ? ? Hf Hrest]; subst.
    destruct (IH _ _ _ _ Hrest) as (s2 & u2 & H1 & H2).
    exists s2, u2. split; [by econstructor|done].
Qed.

Lemma served_drain `{Backend} s u pages s' u' :
  served s u pages s' u' →
  Forall (λ p : page, continues p.2) pages →
  u ≠ "" →
  u' ≠ "" ∧ ∀ fuel acc,
    drain (length pages + fuel) s u acc = drain fuel s' u' (foldl append acc pages.*1).
Proof.
  induction 1 as [s u|s u cards header s1 rest s' u' Hf Hrest IH]; intros Hc Hu.
  - done.
  - apply Forall_cons in Hc as [Hc Hcs].
    pose proof Hc as (u1 & Hu1 & Hne). cbn [snd] in Hu1.
    rewrite Hu1 in IH. cbn [default] in IH.
    destruct (IH Hcs Hne) as [Hu' IH']. split; [done|]. intros fuel acc.
    change (length ((cards, header) :: rest) + fuel) with (S (length rest + fuel)).
    rewrite (drain_step _ _ _ _ _ _ _ u1 Hu Hf); [apply IH'|].
    rewrite nextLink_continues by done. by rewrite Hu1.
Qed.

Lemma served_requests `{Backend} s u pages s' u' :
  served s u pages s' u' →
  heap s' = heap s
  ∧ ∃ urls, requests s' = requests s ++ urls ∧ length urls = length pages.
Proof.
  induction 1 as [s u|s u cards header s1 rest s' u' Hf Hrest (Hh & urls & Hr & Hl)].
  - split; [done|]. exists []. by rewrite app_nil_r.
  - pose proof (fetchCards_state s u) as [Hh1 Hr1]. rewrite Hf in Hh1, Hr1. simpl in *.
    split; [congruence|]. exists (u :: urls). split; [|by simpl; rewrite Hl].
    by rewrite Hr, Hr1, <- app_assoc.
Qed.

Lemma elems_append {A} (s t : slice A) : elems (append s t) = elems s ++ elems t.
Proof.
  unfold append. destruct (elems t) eqn:Ht; [by rewrite app_nil_r|done].
Qed.

Lemma elems_appends {A} (l : list (slice A)) (acc : slice A) :
  elems (foldl append acc l) = elems acc ++ concat (elems <$> l).
Proof.
  revert acc. induction l as [|t l IH]; intros acc; simpl; [by rewrite app_nil_r|].
  by rewrite IH, elems_append, <- app_assoc.
Qed.

(** ** The package on examples *)

(** [NewQuery().Where(CardSet, "KLD").Where(CardRarity, "Rare").Page(1)] *)
Example chained_query_request :
  (let '(h, q) := NewQuery ∅ in
   '(h, q) ← Where h q CardSet "KLD";
   '(h, q) ← Where h q CardRarity "Rare";
   Some (requests (Page {| heap := h; world := Mock.three_pages; requests := [] |} q 1).1))
  = Some ["https://api.magicthegathering.io/v1/cards?page=1&pageSize=100&rarity=Rare&set=KLD"].
Proof. vm_compute. reflexivity. Qed.

(** A mutation of a copy is not seen by the original, and the other way round. *)
Example copy_then_mutate :
  (let '(h, q) := NewQuery ∅ in
   '(h, q) ← Where h q CardSet "KLD";
   let '(h, r) := Copy h q in
   '(h, _) ← Where h r CardSet "AER";
   '(h, _) ← OrderBy h q CardName;
   Some (map_to_list (entries h q), map_to_list (entries h r)))
  = Some ([("orderBy", "name"); ("set", "KLD")], [("set", "AER")]).
Proof. vm_compute. reflexivity. Qed.

(** Three pages need three iterations. *)
Example All_still_running :
  (All 2 (Mock.start ∅ Mock.three_pages) Mock.q1).2 = Running.
Proof. vm_compute. reflexivity. Qed.

(** A [Link] header without any value. *)
Example All_panics :
  (All 1 (Mock.start ∅ (Mock.one_page (firstURL ∅) [("Link", [])] Mock.page1)) Mock.q1).2
  = Panics.
Proof. vm_compute. reflexivity. Qed.

(** [Random] returns the records of the page and ignores [Total-Count]. *)
Example Random_example :
  let m : gmap string string := {[ "set" := "KLD" ]} in
  let r := Random (Mock.start m (Mock.one_page (randomURL m 10) [("Total-Count", ["x"])]
                                   Mock.page1)) Mock.q1 10 in
  requests r.1 = ["https://api.magicthegathering.io/v1/cards?pageSize=10&random=true&set=KLD"]
  ∧ r.2 = (Some [Some "Opt"; Some "Shock"], None).
Proof. split; vm_compute; reflexivity. Qed.

(** Against a server that never omits the next link, [All] is still
    running after any number of iterations. *)
Lemma drain_endless fuel : ∀ (s : state) (acc : slice (ptr Card)),
  world s = Mock.endless →
  (drain fuel s (firstURL ∅) acc).2 = Running
  ∧ length (requests (drain fuel s (firstURL ∅) acc).1) = length (requests s) + fuel.
Proof.
  induction fuel as [|fuel IH]; intros s acc Hw.
  - split; [done|]. simpl. lia.
  - assert (∃ s1, fetchCards s (firstURL ∅)
                  = (s1, (Some [Some "Duress"],
                          {[ "Link" := [Mock.next (firstURL ∅)] ]}, None))
                  ∧ world s1 = Mock.endless
                  ∧ requests s1 = requests s ++ [firstURL ∅]) as (s1 & Hf & Hw1 & Hr1).
    { destruct s as [h w r]. simpl in Hw. subst w. eexists. split; [reflexivity|done]. }
    rewrite (drain_step fuel s _ acc s1 _ _ (firstURL ∅) (firstURL_nonempty _) Hf)
      by (vm_compute; reflexivity).
    destruct (IH s1 (append acc (Some [Some "Duress"])) Hw1) as [-> ->].
    split; [done|]. rewrite Hr1, length_app. simpl. lia.
Qed.

Lemma All_never_returns fuel :
  (All fuel (Mock.start ∅ Mock.endless) Mock.q1).2 = Running
  ∧ length (requests (All fuel (Mock.start ∅ Mock.endless) Mock.q1).1) = fuel.
Proof.
  unfold All. rewrite queryVals_fmap.
  apply (drain_endless fuel (Mock.start ∅ Mock.endless) None). reflexivity.
Qed.

(** ** The query builder *)

Lemma new_fresh (h : store) : h !! new h = None ∧ new h ≠ nilQuery.
Proof.
  pose proof (is_fresh ({[ nilQuery ]} ∪ dom h)) as Hnew. fold (new h) in Hnew.
  split; [apply not_elem_of_dom|]; set_solver.
Qed.

(** No call makes a map at [nilQuery]: a store without one stays
    without one, and a write through [nilQuery] panics. *)
Lemma nilQuery_kept (h : store) :
  h !! nilQuery = None →
  (NewQuery h).2 ≠ nilQuery ∧ (NewQuery h).1 !! nilQuery = None
  ∧ (∀ q, (Copy h q).2 ≠ nilQuery ∧ (Copy h q).1 !! nilQuery = None)
  ∧ (∀ q column qry h', Where h q column qry = Some (h', q) → h' !! nilQuery = None)
  ∧ (∀ q column h', OrderBy h q column = Some (h', q) → h' !! nilQuery = None)
  ∧ (∀ column qry, Where h nilQuery column qry = None)
  ∧ entries h nilQuery = ∅.
Proof.
  intros Hnil. destruct (new_fresh h) as [_ Hnew]. unfold NewQuery, Copy. simpl.
  split; [done|]. split; [by rewrite lookup_insert_ne|].
  split; [intros q; split; [done|by rewrite lookup_insert_ne]|].
  unfold Where, OrderBy, entries. rewrite Hnil. repeat split; try done.
  - intros q column qry h'. destruct (h !! q) eqn:Hq; [|done]. intros [= <-].
    rewrite lookup_insert_ne; [done|congruence].
  - intros q column h'. destruct (h !! q) eqn:Hq; [|done]. intros [= <-].
    rewrite lookup_insert_ne; [done|congruence].
Qed.

Example copy_of_nil :
  (let '(h, r) := Copy ∅ nilQuery in
   (bool_decide (r = nilQuery), Where h nilQuery CardName "Opt", entries h r))
  = (false, None, ∅).
Proof. vm_compute. reflexivity. Qed.

Lemma Where_entries h q m column qry :
  h !! q = Some m →
  ∃ h', Where h q column qry = Some (h', q) ∧ h' !! q = Some (<[column := qry]> m)
        ∧ ∀ r, r ≠ q → h' !! r = h !! r.
Proof.
  intros Hq. unfold Where. rewrite Hq. eexists. split; [done|]. split.
  - by rewrite lookup_insert_eq.
  - intros r Hr. by rewrite lookup_insert_ne.
Qed.

Lemma mutate_effect h q m mu :
  h !! q = Some m →
  ∃ h', mutate h q mu = Some (h', q) ∧ h' !! q = Some (effect mu m)
        ∧ ∀ r, r ≠ q → h' !! r = h !! r.
Proof.
  intros Hq. destruct mu as [column qry|column]; simpl.
  - by apply Where_entries.
  - unfold OrderBy. rewrite Hq. eexists. split; [done|]. split.
    + by rewrite lookup_insert_eq.
    + intros r Hr. by rewrite lookup_insert_ne.
Qed.

Lemma mutates_two ops : ∀ h q r mq mr,
  q ≠ r → h !! q = Some mq → h !! r = Some mr →
  Forall (λ op : query * mutation, op.1 = q ∨ op.1 = r) ops →
  ∃ h', mutates h ops = Some h'
        ∧ h' !! q = Some (effects q ops mq) ∧ h' !! r = Some (effects r ops mr).
Proof.
  induction ops as [|[x mu] ops IH]; intros h q r mq mr Hne Hq Hr Hops.
  - by exists h.
  - apply Forall_cons in Hops as [Hx Hops]. simpl in Hx. unfold effects. simpl.
    destruct Hx as [->| ->].
    + destruct (mutate_effect h q mq mu Hq) as (h1 & -> & Hq1 & Hframe).
      rewrite (decide_True (P := q = q)), (decide_False (P := q = r)) by done.
      apply IH; [done|done| |done]. by rewrite Hframe.
    + destruct (mutate_effect h r mr mu Hr) as (h1 & -> & Hr1 & Hframe).
      rewrite (decide_False (P := r = q)), (decide_True (P := r = r)) by done.
      apply IH; [done| |done|done]. by rewrite Hframe.
Qed.

Lemma effects_elsewhere q ops m :
  Forall (λ op : query * mutation, op.1 ≠ q) ops → effects q ops m = m.
Proof.
  unfold effects. revert m. induction ops as [|op ops IH]; intros m Hops; [done|].
  apply Forall_cons in Hops as [Hop Hops]. simpl. rewrite decide_False by done. auto.
Qed.

(** C6. After [q.Where(a, v1)] and then [q.Where(a, v2)], the map of [q]
    holds one entry for [a], with value [v2] (and is otherwise the map it
    was), and each call returns [q] itself. *)
Theorem Where_last_write_wins (h : store) (q : query) (m : gmap string string)
    (a v1 v2 : string) :
  h !! q = Some m →
  ∃ h1 h2,
    Where h q a v1 = Some (h1, q) ∧ Where h1 q a v2 = Some (h2, q)
    ∧ entries h2 q !! a = Some v2
    ∧ filter (λ kv, kv.1 = a) (map_to_list (entries h2 q)) = [(a, v2)]
    ∧ entries h2 q = <[a := v2]> m.
Proof.
  intros Hq.
  destruct (Where_entries h q m a v1 Hq) as (h1 & Hw1 & Hq1 & _).
  destruct (Where_entries h1 q _ a v2 Hq1) as (h2 & Hw2 & Hq2 & _).
  exists h1, h2. unfold entries. rewrite Hq2. simpl. rewrite insert_insert_eq.
  repeat split; try done.
  - by rewrite lookup_insert_eq.
  - apply filter_key_unique; [apply NoDup_fst_map_to_list|].
    apply elem_of_map_to_list. by rewrite lookup_insert_eq.
Qed.

Lemma Where_last_write_wins_witness :
  Mock.one_query ∅ !! Mock.q1 = Some ∅
  ∧ ∃ h1 h2,
      Where (Mock.one_query ∅) Mock.q1 "name" "Opt" = Some (h1, Mock.q1)
      ∧ Where h1 Mock.q1 "name" "Shock" = Some (h2, Mock.q1)
      ∧ entries h2 Mock.q1 !! "name" = Some "Shock"
      ∧ filter (λ kv, kv.1 = "name") (map_to_list (entries h2 Mock.q1)) = [("name", "Shock")]
      ∧ entries h2 Mock.q1 = <["name" := "Shock"]> ∅.
Proof.
  split; [reflexivity|].
  apply (Where_last_write_wins (Mock.one_query ∅) Mock.q1 ∅ "name" "Opt" "Shock").
  reflexivity.
Defined.

(** C7. [q.Copy()] returns a new query that holds the entries of [q], and
    from then on a [Where] or [OrderBy] on one of the two changes that one
    only: after any sequence of such calls, each of the two maps is its
    snapshot with the calls aimed at it applied, so calls aimed at the copy
    alone leave the original as it was, and the other way round. *)
Theorem Copy_independent (h : store) (q : query) (m : gmap string string) :
  h !! q = Some m →
  ∃ h1 r,
    Copy h q = (h1, r) ∧ r ≠ q ∧ h1 !! q = Some m ∧ h1 !! r = Some m
    ∧ ∀ ops, Forall (λ op : query * mutation, op.1 = q ∨ op.1 = r) ops →
        ∃ h2, mutates h1 ops = Some h2
              ∧ h2 !! q = Some (effects q ops m) ∧ h2 !! r = Some (effects r ops m)
              ∧ (Forall (λ op, op.1 = r) ops → h2 !! q = Some m)
              ∧ (Forall (λ op, op.1 = q) ops → h2 !! r = Some m).
Proof.
  intros Hq. unfold Copy, entries. rewrite Hq. simpl. rewrite copy_loop.
  set (r := new h).
  assert (h !! r = None) as Hr by apply new_fresh.
  assert (r ≠ q) as Hne by congruence.
  exists (<[r := m]> h), r. repeat split; try done.
  - by rewrite lookup_insert_ne.
  - by rewrite lookup_insert_eq.
  - intros ops Hops.
    destruct (mutates_two ops (<[r := m]> h) q r m m) as (h2 & Hm & Hq2 & Hr2); try done.
    { by rewrite lookup_insert_ne. }
    { by rewrite lookup_insert_eq. }
    exists h2. repeat split; try done.
    + intros Hall. rewrite Hq2, effects_elsewhere; [done|].
      eapply Forall_impl; [exact Hall|]. simpl. congruence.
    + intros Hall. rewrite Hr2, effects_elsewhere; [done|].
      eapply Forall_impl; [exact Hall|]. simpl. congruence.
Qed.

Lemma Copy_independent_witness :
  let m : gmap string string := {[ "set" := "KLD" ]} in
  Mock.one_query m !! Mock.q1 = Some m
  ∧ ∃ h1 r,
      Copy (Mock.one_query m) Mock.q1 = (h1, r) ∧ r ≠ Mock.q1
      ∧ h1 !! Mock.q1 = Some m ∧ h1 !! r = Some m
      ∧ ∀ ops, Forall (λ op : query * mutation, op.1 = Mock.q1 ∨ op.1 = r) ops →
          ∃ h2, mutates h1 ops = Some h2
                ∧ h2 !! Mock.q1 = Some (effects Mock.q1 ops m)
                ∧ h2 !! r = Some (effects r ops m)
                ∧ (Forall (λ op, op.1 = r) ops → h2 !! Mock.q1 = Some m)
                ∧ (Forall (λ op, op.1 = Mock.q1) ops → h2 !! r = Some m).
Proof.
  intros m. split; [reflexivity|].
  apply (Copy_independent (Mock.one_query m) Mock.q1 m). reflexivity.
Defined.



(** X2. [Where] on a live query sets the entry of its column and nothing
    else: the other columns of the query and all the other queries are as
    they were. *)
Theorem Where_sets_one_entry (h : store) (q : query) (m : gmap string string)
    (a : cardColumn) (v : string) :
  h !! q = Some m →
  ∃ h', Where h q a v = Some (h', q)
        ∧ entries h' q !! a = Some v
        ∧ (∀ b, b ≠ a → entries h' q !! b = m !! b)
        ∧ (∀ r, r ≠ q → h' !! r = h !! r).
Proof.
  intros Hq. destruct (Where_entries h q m a v Hq) as (h' & Hw & Hq' & Hframe).
  exists h'. unfold entries. rewrite Hq'. simpl. split; [done|].
  split; [by rewrite lookup_insert_eq|]. split; [|done].
  intros b Hb. by rewrite lookup_insert_ne.
Qed.

Lemma Where_sets_one_entry_witness :
  let m : gmap string string := {[ "set" := "KLD" ]} in
  Mock.one_query m !! Mock.q1 = Some m
  ∧ ∃ h', Where (Mock.one_query m) Mock.q1 CardRarity "Rare" = Some (h', Mock.q1)
          ∧ entries h' Mock.q1 !! CardRarity = Some "Rare"
          ∧ (∀ b, b ≠ CardRarity → entries h' Mock.q1 !! b = m !! b)
          ∧ (∀ r, r ≠ Mock.q1 → h' !! r = Mock.one_query m !! r).
Proof.
  intros m. split; [reflexivity|].
  apply (Where_sets_one_entry (Mock.one_query m) Mock.q1 m CardRarity "Rare"). reflexivity.
Defined.

(** X3. Two [Where] calls on different columns commute: either order
    leaves the same store. *)
Theorem Where_commute (h : store) (q : query) (m : gmap string string)
    (a b : cardColumn) (va vb : string) :
  h !! q = Some m → a ≠ b →
  ('(h1, _) ← Where h q a va; Where h1 q b vb)
  = ('(h1, _) ← Where h q b vb; Where h1 q a va)
  ∧ ('(h1, _) ← Where h q a va; Where h1 q b vb)
    = Some (<[q := <[b := vb]> (<[a := va]> m)]> h, q).
Proof.
  intros Hq Hab. unfold Where. rewrite Hq. simpl. rewrite !lookup_insert_eq.
  rewrite !insert_insert_eq. split; [|done]. by rewrite (insert_insert_ne m a b).
Qed.

Lemma Where_commute_witness :
  Mock.one_query ∅ !! Mock.q1 = Some ∅ ∧ CardSet ≠ CardRarity
  ∧ ('(h1, _) ← Where (Mock.one_query ∅) Mock.q1 CardSet "KLD";
     Where h1 Mock.q1 CardRarity "Rare")
    = ('(h1, _) ← Where (Mock.one_query ∅) Mock.q1 CardRarity "Rare";
       Where h1 Mock.q1 CardSet "KLD").
Proof.
  split; [reflexivity|]. split; [discriminate|].
  apply (Where_commute (Mock.one_query ∅) Mock.q1 ∅ CardSet CardRarity "KLD" "Rare");
    [reflexivity|discriminate].
Defined.

(** X4. [OrderBy(column)] writes the entry [orderBy], as
    [Where("orderBy", column)] does: a second [OrderBy] replaces the first,
    and a [Where] on the column [orderBy] replaces the ordering too. *)
Theorem OrderBy_overwrites (h : store) (q : query) (m : gmap string string)
    (c1 c2 : cardColumn) (v : string) :
  h !! q = Some m →
  OrderBy h q c1 = Where h q "orderBy" c1
  ∧ ∃ h1 h2 h3,
      OrderBy h q c1 = Some (h1, q) ∧ OrderBy h1 q c2 = Some (h2, q)
      ∧ entries h1 q = <["orderBy" := c1]> m
      ∧ entries h2 q = <["orderBy" := c2]> m
      ∧ Where h1 q "orderBy" v = Some (h3, q)
      ∧ entries h3 q = <["orderBy" := v]> m.
Proof.
  intros Hq. split; [done|].
  destruct (mutate_effect h q m (MOrderBy c1) Hq) as (h1 & Ho1 & Hq1 & _).
  destruct (mutate_effect h1 q _ (MOrderBy c2) Hq1) as (h2 & Ho2 & Hq2 & _).
  destruct (Where_entries h1 q _ "orderBy" v Hq1) as (h3 & Hw3 & Hq3 & _).
  simpl in *. exists h1, h2, h3. unfold entries. rewrite Hq1, Hq2, Hq3. simpl.
  rewrite !insert_insert_eq. done.
Qed.

Lemma OrderBy_overwrites_witness :
  let m : gmap string string := {[ "set" := "KLD" ]} in
  Mock.one_query m !! Mock.q1 = Some m
  ∧ ∃ h1 h2 h3,
      OrderBy (Mock.one_query m) Mock.q1 CardName = Some (h1, Mock.q1)
      ∧ OrderBy h1 Mock.q1 CardCMC = Some (h2, Mock.q1)
      ∧ entries h1 Mock.q1 = <["orderBy" := "name"]> m
      ∧ entries h2 Mock.q1 = <["orderBy" := "cmc"]> m
      ∧ Where h1 Mock.q1 "orderBy" "rarity" = Some (h3, Mock.q1)
      ∧ entries h3 Mock.q1 = <["orderBy" := "rarity"]> m.
Proof.
  intros m. split; [reflexivity|].
  apply (OrderBy_overwrites (Mock.one_query m) Mock.q1 m CardName CardCMC "rarity").
  reflexivity.
Defined.

(** ** The response decoder *)

(** C5, as the code has it. For a body that is read and decoded without
    error: when the single-record slot is populated the decoder returns
    the one-element list of that record, whatever the list slot holds;
    otherwise it returns the list slot as it is, the empty list and the nil
    list included. *)
Theorem decodeCards_normalizes `{Backend} (reader : ReadCloser) (cardResp : cardResponse Card) :
  readErr reader = None →
  json_Unmarshal (bytes reader)
    {| cardResponse_Card := None; cardResponse_Cards := None |} = (cardResp, None) →
  (∀ c, cardResponse_Card cardResp = Some c → decodeCards reader = (Some [Some c], None))
  ∧ (cardResponse_Card cardResp = None →
     decodeCards reader = (cardResponse_Cards cardResp, None)
     ∧ (cardResponse_Cards cardResp = Some [] → decodeCards reader = (Some [], None))
     ∧ (cardResponse_Cards cardResp = None → decodeCards reader = (None, None))).
Proof.
  intros Hread Hdec. unfold decodeCards, ReadAll. rewrite Hread, Hdec. split.
  - by intros c ->.
  - intros ->. repeat split; by intros ->.
Qed.

Lemma decodeCards_normalizes_witness :
  let reader := {| bytes := Mock.json "{'card':{'name':'Opt'},'cards':[{'name':'Shock'}]}";
                   readErr := None |} in
  let cardResp := {| cardResponse_Card := Some "Opt";
                     cardResponse_Cards := Some [Some "Shock"] |} in
  readErr reader = None
  ∧ json_Unmarshal (bytes reader)
      {| cardResponse_Card := None; cardResponse_Cards := None |} = (cardResp, None)
  ∧ decodeCards reader = (Some [Some "Opt"], None).
Proof.
  intros reader cardResp.
  split; [reflexivity|]. split; [vm_compute; reflexivity|].
  apply (decodeCards_normalizes (H := Mock.backend) reader cardResp); reflexivity.
Defined.

(** The body [{}] is decoded without error and sets neither slot: the
    decoder returns the nil list. *)
Lemma decodeCards_nil_list :
  let reader := {| bytes := "{}"; readErr := None |} in
  json_Unmarshal (bytes reader)
    {| cardResponse_Card := None; cardResponse_Cards := None |}
  = ({| cardResponse_Card := None; cardResponse_Cards := None |}, None)
  ∧ decodeCards reader = (None, None)
  ∧ ¬ ∃ l, (decodeCards reader).1 = Some l.
Proof.
  intros reader. split; [vm_compute; reflexivity|]. split; [vm_compute; reflexivity|].
  intros [l Hl]. vm_compute in Hl. discriminate.
Qed.

(** ** The terminal fetches *)

Lemma PageS_unfold `{Backend} s q pageNum pageSize :
  PageS s q pageNum pageSize =
    let '(s1, (cards, header, err)) :=
      fetchCards s (pageURL (entries (heap s) q) pageNum pageSize) in
    match err with
    | Some e => (s1, (None, 0%Z, Some e))
    | None =>
        match header !! "Total-Count" with
        | Some (t :: _) =>
            let '(totalCardCount, err) := Atoi t in
            match err with
            | Some e => (s1, (None, 0%Z, Some e))
            | None => (s1, (cards, totalCardCount, None))
            end
        | _ => (s1, (cards, len cards, None))
        end
    end.
Proof. unfold PageS. by rewrite queryVals_fmap. Qed.

Lemma Random_unfold `{Backend} s q count :
  Random s q count =
    let '(s1, (cards, _, err)) :=
      fetchCards s (randomURL (entries (heap s) q) count) in
    (s1, (cards, err)).
Proof. unfold Random. by rewrite queryVals_fmap. Qed.

Lemma All_unfold `{Backend} fuel s q :
  All fuel s q = drain fuel s (firstURL (entries (heap s) q)) None.
Proof. unfold All. by rewrite queryVals_fmap. Qed.

Lemma PageS_state `{Backend} s q pageNum pageSize :
  (PageS s q pageNum pageSize).1
  = (fetchCards s (pageURL (entries (heap s) q) pageNum pageSize)).1.
Proof.
  rewrite PageS_unfold.
  destruct (fetchCards _ _) as [s1 [[cards header] [e|]]]; [done|]. simpl.
  destruct (header !! "Total-Count") as [[|t ts]|]; try done.
  by destruct (Atoi t) as [n [e|]].
Qed.

Lemma Random_state `{Backend} s q count :
  (Random s q count).1 = (fetchCards s (randomURL (entries (heap s) q) count)).1.
Proof.
  rewrite Random_unfold. by destruct (fetchCards _ _) as [s1 [[cards header] err]].
Qed.

Lemma pageVals_pairs m pageNum pageSize :
  ("page", strconv.Itoa pageNum) ∈ url.pairs (pageVals m pageNum pageSize)
  ∧ ("pageSize", strconv.Itoa pageSize) ∈ url.pairs (pageVals m pageNum pageSize).
Proof.
  unfold pageVals. split; apply elem_of_pairs; eexists; (split; [|by apply list_elem_of_singleton]).
  - rewrite lookup_insert_ne by done. by rewrite lookup_insert_eq.
  - by rewrite lookup_insert_eq.
Qed.

(** C3. [PageS(pageNum, pageSize)] makes one request, to the URL that
    encodes the parameters of the query with [page=pageNum] and
    [pageSize=pageSize] set; when the fetch succeeds it returns the records
    of the page with, as the count, the integer the first [Total-Count] value
    spells when there is one and it parses, and the number of records when
    there is no [Total-Count] header. *)
Theorem PageS_spec `{Backend} (s : state) (q : query) (pageNum pageSize : Z) :
  let m := entries (heap s) q in
  let u := pageURL m pageNum pageSize in
  u = queryURL +:+ "cards?" +:+ url.Encode (pageVals m pageNum pageSize)
  ∧ pageVals m pageNum pageSize !! "page" = Some [strconv.Itoa pageNum]
  ∧ pageVals m pageNum pageSize !! "pageSize" = Some [strconv.Itoa pageSize]
  ∧ ("page", strconv.Itoa pageNum) ∈ url.pairs (pageVals m pageNum pageSize)
  ∧ ("pageSize", strconv.Itoa pageSize) ∈ url.pairs (pageVals m pageNum pageSize)
  ∧ (PageS s q pageNum pageSize).1 = (fetchCards s u).1
  ∧ requests (PageS s q pageNum pageSize).1 = requests s ++ [u]
  ∧ ∀ cards header,
      (fetchCards s u).2 = (cards, header, None) →
      (∀ t ts n, header !! "Total-Count" = Some (t :: ts) → Atoi t = (n, None) →
                 (PageS s q pageNum pageSize).2 = (cards, n, None))
      ∧ (header !! "Total-Count" = None →
         (PageS s q pageNum pageSize).2 = (cards, Z.of_nat (length (elems cards)), None)).
Proof.
  intros m u. split; [done|].
  split. { unfold pageVals. rewrite lookup_insert_ne by done. by rewrite lookup_insert_eq. }
  split. { unfold pageVals. by rewrite lookup_insert_eq. }
  split; [apply pageVals_pairs|]. split; [apply pageVals_pairs|].
  split; [apply PageS_state|].
  split. { rewrite PageS_state. apply fetchCards_state. }
  intros cards header Hf. rewrite PageS_unfold. fold m. fold u.
  destruct (fetchCards s u) as [s1 [[cards' header'] err]]. simpl in Hf.
  injection Hf as -> -> ->. split.
  - intros t ts n -> ->. done.
  - intros ->. done.
Qed.

Lemma PageS_spec_witness :
  let m : gmap string string := {[ "set" := "KLD" ]} in
  let u := "https://api.magicthegathering.io/v1/cards?page=2&pageSize=50&set=KLD" in
  let s := Mock.start m (Mock.one_page u [("Total-Count", ["731"])] Mock.page1) in
  let s0 := Mock.start m (Mock.one_page u [] Mock.page1) in
  let cards := Some [Some "Opt"; Some "Shock"] in
  pageURL (entries (heap s) Mock.q1) 2 50 = u
  ∧ (fetchCards s u).2 = (cards, {[ "Total-Count" := ["731"] ]}, None)
  ∧ Atoi "731" = (731%Z, None)
  ∧ requests (PageS s Mock.q1 2 50).1 = [u]
  ∧ (PageS s Mock.q1 2 50).2 = (cards, 731%Z, None)
  ∧ (fetchCards s0 u).2 = (cards, ∅, None)
  ∧ requests (PageS s0 Mock.q1 2 50).1 = [u]
  ∧ (PageS s0 Mock.q1 2 50).2 = (cards, 2%Z, None).
Proof.
  intros m u s s0 cards.
  assert (pageURL (entries (heap s) Mock.q1) 2 50 = u) as Hu by (vm_compute; reflexivity).
  assert ((fetchCards s u).2 = (cards, {[ "Total-Count" := ["731"] ]}, None)) as Hf
    by (vm_compute; reflexivity).
  assert ((fetchCards s0 u).2 = (cards, ∅, None)) as Hf0 by (vm_compute; reflexivity).
  destruct (PageS_spec s Mock.q1 2 50) as (_ & _ & _ & _ & _ & _ & Hreq & Hres).
  destruct (PageS_spec s0 Mock.q1 2 50) as (_ & _ & _ & _ & _ & _ & Hreq0 & Hres0).
  change (entries (heap s0) Mock.q1) with (entries (heap s) Mock.q1) in Hreq0, Hres0.
  rewrite Hu in Hreq, Hres, Hreq0, Hres0.
  destruct (Hres _ _ Hf) as [Hsome _]. destruct (Hres0 _ _ Hf0) as [_ Hnone].
  split; [exact Hu|]. split; [exact Hf|]. split; [reflexivity|]. split; [exact Hreq|].
  split; [apply (Hsome "731" []); reflexivity|].
  split; [exact Hf0|]. split; [exact Hreq0|]. apply Hnone. reflexivity.
Defined.

(** C4. When the page is fetched and decoded but the first [Total-Count]
    value does not parse as an integer, [PageS] returns the parse error with
    no records and a zero count. *)
Theorem PageS_bad_total `{Backend} (s : state) (q : query) (pageNum pageSize : Z)
    (cards : slice (ptr Card)) (header : http_Header) (t : string) (ts : list string)
    (n : Z) (c : strconv.cause) :
  (fetchCards s (pageURL (entries (heap s) q) pageNum pageSize)).2 = (cards, header, None) →
  header !! "Total-Count" = Some (t :: ts) →
  strconv.Atoi t = (n, Some c) →
  (PageS s q pageNum pageSize).2 = (None, 0%Z, Some (NumError "Atoi" t c)).
Proof.
  intros Hf Ht Ha. rewrite PageS_unfold.
  destruct (fetchCards s _) as [s1 [[cards' header'] err]]. simpl in Hf.
  injection Hf as -> -> ->. rewrite Ht. unfold Atoi. by rewrite Ha.
Qed.

Lemma PageS_bad_total_witness :
  let m : gmap string string := {[ "set" := "KLD" ]} in
  let s := Mock.start m (Mock.one_page (pageURL m 2 50) [("Total-Count", ["12x"; "7"])]
                           Mock.page1) in
  (fetchCards s (pageURL (entries (heap s) Mock.q1) 2 50)).2
    = (Some [Some "Opt"; Some "Shock"], {[ "Total-Count" := ["12x"; "7"] ]}, None)
  ∧ strconv.Atoi "12x" = (0%Z, Some strconv.ErrSyntax)
  ∧ (PageS s Mock.q1 2 50).2 = (None, 0%Z, Some (NumError "Atoi" "12x" strconv.ErrSyntax)).
Proof.
  intros m s.
  split; [vm_compute; reflexivity|]. split; [reflexivity|].
  apply (PageS_bad_total s Mock.q1 2 50 (Some [Some "Opt"; Some "Shock"])
           {[ "Total-Count" := ["12x"; "7"] ]} "12x" ["7"] 0%Z strconv.ErrSyntax);
    vm_compute; reflexivity.
Defined.

(** C8. No terminal fetch changes the store: after [All], [Page], [PageS]
    or [Random] every query holds the entries it held before, so a [page],
    [pageSize] or [random] key that the query did not hold is not in it
    afterwards either. *)
Theorem fetches_keep_query `{Backend} (s : state) (q : query) :
  (∀ fuel, heap (All fuel s q).1 = heap s)
  ∧ (∀ pageNum, heap (Page s q pageNum).1 = heap s)
  ∧ (∀ pageNum pageSize, heap (PageS s q pageNum pageSize).1 = heap s)
  ∧ (∀ count, heap (Random s q count).1 = heap s)
  ∧ ∀ key, key ∈ ["page"; "pageSize"; "random"] → entries (heap s) q !! key = None →
      (∀ fuel, entries (heap (All fuel s q).1) q !! key = None)
      ∧ (∀ pageNum, entries (heap (Page s q pageNum).1) q !! key = None)
      ∧ (∀ pageNum pageSize, entries (heap (PageS s q pageNum pageSize).1) q !! key = None)
      ∧ (∀ count, entries (heap (Random s q count).1) q !! key = None).
Proof.
  assert (∀ fuel, heap (All fuel s q).1 = heap s) as HAll.
  { intros fuel. unfold All. apply drain_heap. }
  assert (∀ pageNum pageSize, heap (PageS s q pageNum pageSize).1 = heap s) as HPageS.
  { intros. rewrite PageS_state. apply fetchCards_state. }
  assert (∀ count, heap (Random s q count).1 = heap s) as HRandom.
  { intros. rewrite Random_state. apply fetchCards_state. }
  split; [done|]. split; [intros; apply HPageS|]. split; [done|]. split; [done|].
  intros key _ Hkey. split; [|split; [|split]]; intros.
  - by rewrite HAll.
  - unfold Page. by rewrite HPageS.
  - by rewrite HPageS.
  - by rewrite HRandom.
Qed.

Lemma fetches_keep_query_witness :
  let m : gmap string string := {[ "set" := "KLD" ]} in
  let s := Mock.start m Mock.three_pages in
  "page" ∈ ["page"; "pageSize"; "random"]
  ∧ entries (heap s) Mock.q1 !! "page" = None
  ∧ entries (heap (PageS s Mock.q1 2 50).1) Mock.q1 !! "page" = None
  ∧ heap (All 4 s Mock.q1).1 = heap s.
Proof.
  intros m s.
  assert ("page" ∈ ["page"; "pageSize"; "random"]) as Hin by (apply elem_of_cons; by left).
  assert (entries (heap s) Mock.q1 !! "page" = None) as Hno by reflexivity.
  destruct (fetches_keep_query s Mock.q1) as (HAll & _ & _ & _ & Hkeys).
  destruct (Hkeys "page" Hin Hno) as (_ & _ & HPageS & _).
  split; [exact Hin|]. split; [exact Hno|]. split; [apply HPageS|apply HAll].
Defined.

(** ** More on one fetch *)

(** X5. [decodeCards] returns no list with an error: a body that cannot be
    read is not decoded and its error is returned; a decoding error is
    returned whatever the decoder had put in the structure. *)
Theorem decodeCards_errors `{Backend} (reader : ReadCloser) :
  (∀ e, readErr reader = Some e → decodeCards reader = (None, Some e))
  ∧ (∀ cardResp e,
       readErr reader = None →
       json_Unmarshal (bytes reader)
         {| cardResponse_Card := None; cardResponse_Cards := None |} = (cardResp, Some e) →
       decodeCards reader = (None, Some e))
  ∧ (∀ e, (decodeCards reader).2 = Some e → (decodeCards reader).1 = None).
Proof.
  unfold decodeCards, ReadAll. split; [|split].
  - by intros e ->.
  - by intros cardResp e -> ->.
  - intros e. destruct (readErr reader); [done|].
    destruct (json_Unmarshal _ _) as [cardResp [e'|]]; [done|].
    by destruct (cardResponse_Card cardResp).
Qed.

Lemma decodeCards_errors_witness :
  let reader := {| bytes := "{"; readErr := None |} in
  (decodeCards reader).2 = Some (DecodeError "invalid character")
  ∧ (decodeCards reader).1 = None.
Proof.
  intros reader.
  assert ((decodeCards reader).2 = Some (DecodeError "invalid character")) as He
    by (vm_compute; reflexivity).
  split; [exact He|].
  destruct (decodeCards_errors (H := Mock.backend) reader) as (_ & _ & Hnil).
  exact (Hnil _ He).
Defined.

(** X6. [fetchCards] makes exactly one request, to the URL it is given,
    whatever comes of it, and an error comes with neither records nor
    headers. *)
Theorem fetchCards_one_request `{Backend} (s : state) (u : string) :
  requests (fetchCards s u).1 = requests s ++ [u]
  ∧ heap (fetchCards s u).1 = heap s
  ∧ world (fetchCards s u).1 = (http_Get (world s) u).1
  ∧ ∀ e, (fetchCards s u).2.2 = Some e → (fetchCards s u).2.1 = (None, ∅).
Proof.
  unfold fetchCards. destruct (http_Get (world s) u) as [w [resp|e']]; simpl; [|done].
  destruct (checkError resp); [done|].
  destruct (decodeCards (Body resp)) as [cards [e'|]]; done.
Qed.

Lemma fetchCards_one_request_witness :
  let s := Mock.start ∅ Mock.broken_second in
  (fetchCards s "https://h/p2").2.2 = Some (TransportError "connection reset")
  ∧ (fetchCards s "https://h/p2").2.1 = (None, ∅)
  ∧ requests (fetchCards s "https://h/p2").1 = ["https://h/p2"].
Proof.
  intros s.
  assert ((fetchCards s "https://h/p2").2.2 = Some (TransportError "connection reset")) as He
    by (vm_compute; reflexivity).
  destruct (fetchCards_one_request s "https://h/p2") as (Hr & _ & _ & Hnil).
  split; [exact He|]. split; [exact (Hnil _ He)|exact Hr].
Defined.

(** X7. The errors of [fetchCards] in the order the code meets them: the
    error of the transport; else the one [checkError] finds in the response,
    without the body being decoded; else the one of reading or decoding the
    body. Without any of them the records are the decoded ones and the
    headers those of the response. *)
Theorem fetchCards_error_order `{Backend} (s : state) (u : string) :
  (∀ e, (http_Get (world s) u).2 = inr e → (fetchCards s u).2 = (None, ∅, Some e))
  ∧ (∀ resp e,
       (http_Get (world s) u).2 = inl resp → checkError resp = Some e →
       (fetchCards s u).2 = (None, ∅, Some e))
  ∧ (∀ resp cards e,
       (http_Get (world s) u).2 = inl resp → checkError resp = None →
       decodeCards (Body resp) = (cards, Some e) →
       (fetchCards s u).2 = (None, ∅, Some e))
  ∧ (∀ resp cards,
       (http_Get (world s) u).2 = inl resp → checkError resp = None →
       decodeCards (Body resp) = (cards, None) →
       (fetchCards s u).2 = (cards, Header resp, None)).
Proof.
  unfold fetchCards. destruct (http_Get (world s) u) as [w r]; simpl.
  split; [by intros e ->|]. split; [by intros resp e -> ->|].
  split; [by intros resp cards e -> -> ->|]. by intros resp cards -> -> ->.
Qed.

Lemma fetchCards_error_order_witness :
  let bad : Response := {| StatusCode := 500; Header := ∅;
                           Body := {| bytes := Mock.page1; readErr := None |} |} in
  let s := Mock.start ∅ [("https://h/p1", inl bad)] in
  (http_Get (world s) "https://h/p1").2 = inl bad
  ∧ checkError bad = Some (APIError "status")
  ∧ (fetchCards s "https://h/p1").2 = (None, ∅, Some (APIError "status")).
Proof.
  intros bad s.
  assert ((http_Get (world s) "https://h/p1").2 = inl bad) as Hg by (vm_compute; reflexivity).
  assert (checkError bad = Some (APIError "status")) as Hc by (vm_compute; reflexivity).
  split; [exact Hg|]. split; [exact Hc|].
  destruct (fetchCards_error_order s "https://h/p1") as (_ & Hapi & _).
  exact (Hapi bad _ Hg Hc).
Defined.

(** ** The parameters of the requests *)

Lemma params_pairs m k v : (k, v) ∈ url.pairs (params m) ↔ m !! k = Some v.
Proof.
  rewrite elem_of_pairs. unfold params. rewrite lookup_fmap. split.
  - intros (l & Hl & Hv). destruct (m !! k) as [x|]; simplify_eq/=.
    by apply list_elem_of_singleton in Hv as ->.
  - intros ->. exists [v]. split; [done|]. by apply list_elem_of_singleton.
Qed.

Lemma set_pairs (vals : url.Values) key value k v :
  (k, v) ∈ url.pairs (<[key := [value]]> vals)
  ↔ (k = key ∧ v = value) ∨ (k ≠ key ∧ (k, v) ∈ url.pairs vals).
Proof.
  rewrite !elem_of_pairs. destruct (decide (k = key)) as [->|Hne].
  - rewrite lookup_insert_eq. split.
    + intros (l & [= <-] & Hv). left. by apply list_elem_of_singleton in Hv.
    + intros [[_ ->]|[? _]]; [|done]. exists [value]. split; [done|].
      by apply list_elem_of_singleton.
  - rewrite lookup_insert_ne by done. split; [by right|]. by intros [[? _]|[_ ?]].
Qed.

Lemma set_set_pairs m k1 v1 k2 v2 k v :
  k1 ≠ k2 →
  (k, v) ∈ url.pairs (<[k1 := [v1]]> (<[k2 := [v2]]> (params m)))
  ↔ (k = k1 ∧ v = v1) ∨ (k = k2 ∧ v = v2) ∨ (k ≠ k1 ∧ k ≠ k2 ∧ m !! k = Some v).
Proof. intros Hne. rewrite !set_pairs, params_pairs. intuition congruence. Qed.

(** X8. The request of [PageS] carries [page] and [pageSize] with the
    arguments of the call, also when the query holds entries under these
    keys, and every other entry of the query as it is; nothing else.
    [Page] does the same with the page size 100. *)
Theorem PageS_parameters `{Backend} (s : state) (q : query) (pageNum pageSize : Z) :
  let m := entries (heap s) q in
  requests (PageS s q pageNum pageSize).1
    = requests s ++ [queryURL +:+ "cards?" +:+ url.Encode (pageVals m pageNum pageSize)]
  ∧ requests (Page s q pageNum).1
    = requests s ++ [queryURL +:+ "cards?" +:+ url.Encode (pageVals m pageNum 100)]
  ∧ ∀ k v, (k, v) ∈ url.pairs (pageVals m pageNum pageSize)
           ↔ (k = "pageSize" ∧ v = strconv.Itoa pageSize)
             ∨ (k = "page" ∧ v = strconv.Itoa pageNum)
             ∨ (k ≠ "pageSize" ∧ k ≠ "page" ∧ m !! k = Some v).
Proof.
  intros m. split; [|split].
  - rewrite PageS_state. apply fetchCards_state.
  - unfold Page. rewrite PageS_state. apply fetchCards_state.
  - intros k v. by apply set_set_pairs.
Qed.

Lemma PageS_parameters_witness :
  let m : gmap string string := <["page" := "7"]> {[ "set" := "KLD" ]} in
  let s := Mock.start m [] in
  requests (PageS s Mock.q1 2 50).1
    = ["https://api.magicthegathering.io/v1/cards?page=2&pageSize=50&set=KLD"]
  ∧ ("page", "2") ∈ url.pairs (pageVals m 2 50)
  ∧ (("page", "7") ∉ url.pairs (pageVals m 2 50))
  ∧ ("set", "KLD") ∈ url.pairs (pageVals m 2 50).
Proof.
  intros m s.
  destruct (PageS_parameters s Mock.q1 2 50) as (Hr & _ & Hp).
  change (entries (heap s) Mock.q1) with m in Hr, Hp.
  split; [rewrite Hr; vm_compute; reflexivity|].
  destruct (Hp "page" "2") as [_ H2]. destruct (Hp "page" "7") as [H7 _].
  destruct (Hp "set" "KLD") as [_ Hset].
  split; [apply H2; right; left; split; reflexivity|].
  split.
  - intros Hin. destruct (H7 Hin) as [[Hk _]|[[_ Hv]|(_ & Hk & _)]];
      [discriminate Hk|discriminate Hv|by apply Hk].
  - apply Hset. right. right. split; [discriminate|]. split; [discriminate|]. reflexivity.
Defined.

(** X9. [Random(count)] makes one request, with [random=true] and
    [pageSize=count] set over the entries of the query, and returns the
    records and the error of that fetch as they are: the headers, a
    [Total-Count] that does not parse included, play no part. *)
Theorem Random_spec `{Backend} (s : state) (q : query) (count : Z) :
  let m := entries (heap s) q in
  let u := queryURL +:+ "cards?" +:+ url.Encode (randomVals m count) in
  Random s q count = ((fetchCards s u).1, ((fetchCards s u).2.1.1, (fetchCards s u).2.2))
  ∧ requests (Random s q count).1 = requests s ++ [u]
  ∧ ∀ k v, (k, v) ∈ url.pairs (randomVals m count)
           ↔ (k = "pageSize" ∧ v = strconv.Itoa count)
             ∨ (k = "random" ∧ v = "true")
             ∨ (k ≠ "pageSize" ∧ k ≠ "random" ∧ m !! k = Some v).
Proof.
  intros m u.
  assert (Random s q count
          = ((fetchCards s u).1, ((fetchCards s u).2.1.1, (fetchCards s u).2.2))) as Heq.
  { rewrite Random_unfold. fold m. change (randomURL m count) with u.
    by destruct (fetchCards s u) as [s1 [[cards header] err]]. }
  split; [done|]. split.
  - rewrite Heq. apply fetchCards_state.
  - intros k v. by apply set_set_pairs.
Qed.

Lemma Random_spec_witness :
  let m : gmap string string := {[ "set" := "KLD" ]} in
  let u := "https://api.magicthegathering.io/v1/cards?pageSize=10&random=true&set=KLD" in
  let s := Mock.start m (Mock.one_page u [("Total-Count", ["x"])] Mock.page1) in
  requests (Random s Mock.q1 10).1 = [u]
  ∧ (Random s Mock.q1 10).2 = (Some [Some "Opt"; Some "Shock"], None)
  ∧ ("random", "true") ∈ url.pairs (randomVals m 10).
Proof.
  intros m u s.
  destruct (Random_spec s Mock.q1 10) as (Heq & Hr & Hp).
  change (entries (heap s) Mock.q1) with m in Heq, Hr, Hp.
  split; [rewrite Hr; vm_compute; reflexivity|].
  split; [rewrite Heq; vm_compute; reflexivity|].
  destruct (Hp "random" "true") as [_ Hrandom].
  apply Hrandom. right. left. split; reflexivity.
Defined.

(** X10. The other ways out of [PageS]: a fetch that fails gives its error
    with no records and a zero count; a [Total-Count] header that holds no
    value counts as absent, the count is the number of records. *)
Theorem PageS_error_and_empty_total `{Backend} (s : state) (q : query) (pageNum pageSize : Z) :
  let u := pageURL (entries (heap s) q) pageNum pageSize in
  (∀ e, (fetchCards s u).2.2 = Some e →
        (PageS s q pageNum pageSize).2 = (None, 0%Z, Some e))
  ∧ (∀ cards header,
       (fetchCards s u).2 = (cards, header, None) →
       header !! "Total-Count" = Some [] →
       (PageS s q pageNum pageSize).2 = (cards, len cards, None)).
Proof.
  intros u. rewrite PageS_unfold. fold u.
  destruct (fetchCards s u) as [s1 [[cards header] err]]. simpl. split.
  - by intros e ->.
  - by intros cards' header' [= -> -> ->] ->.
Qed.

Lemma PageS_error_and_empty_total_witness :
  let m : gmap string string := {[ "set" := "KLD" ]} in
  let s := Mock.start m (Mock.one_page (pageURL m 2 50) [("Total-Count", [])] Mock.page1) in
  (fetchCards s (pageURL (entries (heap s) Mock.q1) 2 50)).2
    = (Some [Some "Opt"; Some "Shock"], {[ "Total-Count" := [] ]}, None)
  ∧ (PageS s Mock.q1 2 50).2 = (Some [Some "Opt"; Some "Shock"], 2%Z, None).
Proof.
  intros m s.
  assert ((fetchCards s (pageURL (entries (heap s) Mock.q1) 2 50)).2
          = (Some [Some "Opt"; Some "Shock"], {[ "Total-Count" := [] ]}, None)) as Hf
    by (vm_compute; reflexivity).
  split; [exact Hf|].
  destruct (PageS_error_and_empty_total s Mock.q1 2 50) as [_ Hempty].
  apply (Hempty _ _ Hf). reflexivity.
Defined.

(** ** The drain *)

Lemma served_step `{Backend} s u cards header rest s' u' :
  (fetchCards s u).2 = (cards, header, None) →
  served (fetchCards s u).1 (default "" (lastNext header)) rest s' u' →
  served s u ((cards, header) :: rest) s' u'.
Proof.
  intros Hf Hrest. apply (served_cons _ _ _ _ (fetchCards s u).1); [|done].
  rewrite <- Hf. by destruct (fetchCards s u).
Qed.

Lemma drain_first_request `{Backend} fuel : ∀ s u acc,
  ∃ rest, requests (drain fuel s u acc).1 = requests s ++ rest
          ∧ (u ≠ "" → fuel ≠ O → ∃ rest', rest = u :: rest').
Proof.
  induction fuel as [|fuel IH]; intros s u acc; simpl.
  - exists []. rewrite app_nil_r. by destruct (decide (u = "")).
  - destruct (decide (u = "")) as [->|Hu].
    { exists []. by rewrite app_nil_r. }
    pose proof (fetchCards_state s u) as [_ Hr].
    destruct (fetchCards s u) as [s1 [[cards header] [e|]]]; simpl in *.
    { exists [u]. eauto. }
    destruct (nextLink header) as [next|]; [|exists [u]; by eauto].
    destruct (IH s1 next (append acc cards)) as (rest & Hrest & _).
    exists (u :: rest). split; [|by eauto].
    rewrite Hrest, Hr, <- app_assoc. done.
Qed.

(** The drain over any headers, by what the scan reads in them: pages
    that each leave a non-empty next URL, then a page that leaves an empty
    one. *)
Lemma All_served `{Backend} (s : state) (q : query) (pages : list page) (last_page : page)
    (s' : state) (u' : string) (fuel : nat) :
  served s (firstURL (entries (heap s) q)) (pages ++ [last_page]) s' u' →
  Forall (λ p : page, continues p.2) pages →
  stops last_page.2 →
  length pages < fuel →
  All fuel s q = (s', Returns (foldl append None (pages ++ [last_page]).*1, None))
  ∧ elems (foldl append None (pages ++ [last_page]).*1) = records (pages ++ [last_page])
  ∧ ∃ urls, requests s' = requests s ++ urls ∧ length urls = S (length pages).
Proof.
  intros Hs Hc Hstop Hfuel. split; [|split].
  - apply served_app_inv in Hs as (s1 & u1 & Hs1 & Hs2).
    destruct (served_drain _ _ _ _ _ Hs1 Hc (firstURL_nonempty _)) as [Hu1 Hdrain].
    inversion Hs2 as [|? ? cards header s2 rest ? ? Hf Hnil]; subst.
    inversion Hnil; subst.
    rewrite All_unfold.
    replace fuel with (length pages + S (fuel - S (length pages))) by lia.
    rewrite Hdrain.
    rewrite (drain_step _ _ _ _ _ _ _ "" Hu1 Hf) by (by apply nextLink_stops).
    rewrite drain_stop. by rewrite fmap_app, foldl_app.
  - unfold records. rewrite elems_appends. simpl.
    by rewrite <- list_fmap_compose.
  - destruct (served_requests _ _ _ _ _ Hs) as (_ & urls & Hr & Hl).
    exists urls. split; [done|]. rewrite Hl, length_app. simpl. lia.
Qed.

Lemma answered_drain `{Backend} rest : ∀ s u p s' acc fuel,
  answered s ((u, p) :: rest) s' → linked ((u, p) :: rest) → u ≠ "" →
  length rest < fuel →
  drain fuel s u acc
  = (s', Returns (foldl append acc ((λ x : string * page, x.2.1) <$> (u, p) :: rest), None)).
Proof.
  induction rest as [|[u' p'] rest IH]; intros s u p s' acc fuel Ha Hl Hu Hfuel;
    (destruct fuel as [|fuel]; [simpl in Hfuel; lia|]);
    inversion Ha as [|? ? cards header s1 ? ? Hf Hrest]; subst.
  - inversion Hrest; subst. simpl in Hl.
    rewrite (drain_step _ _ _ _ _ _ _ "" Hu Hf) by (by apply nextLink_final).
    by rewrite drain_stop.
  - destruct Hl as (Hu' & Hann & Hl).
    rewrite (drain_step _ _ _ _ _ _ _ u' Hu Hf) by (by apply nextLink_announces).
    rewrite (IH s1 u' p' s' _ fuel Hrest Hl Hu') by (simpl in Hfuel; lia). done.
Qed.

Lemma answered_requests `{Backend} l : ∀ s s',
  answered s l s' → requests s' = requests s ++ l.*1 ∧ heap s' = heap s.
Proof.
  induction l as [|[u p] l IH]; intros s s' Ha;
    inversion Ha as [|? ? cards header s1 ? ? Hf Hrest]; subst.
  - by rewrite app_nil_r.
  - destruct (IH _ _ Hrest) as [-> ->].
    pose proof (fetchCards_state s u) as [Hh Hr]. rewrite Hf in Hh, Hr. simpl in *.
    by rewrite Hr, Hh, <- app_assoc.
Qed.

(** C1, as the code has it. The requests of [All], the first to the URL
    of the query and each following one to the URL the page before it
    announces, are answered with N+1 pages. Each of the first N has a
    well-formed first [Link] value (plain entries in the written form, a
    comma and a space between them) whose last [next] entry has a non-empty
    URL; the last page has no [Link] header, or a well-formed first value
    with no [next] entry or an empty URL in the last one. Then [All] returns
    the records of the N+1 pages in page order, after exactly these N+1
    requests, once the next URL is empty; N+1 iterations are enough. *)
Theorem All_follows_links `{Backend} (s : state) (q : query) (p0 : page)
    (rest : list (string * page)) (s' : state) (fuel : nat) :
  let l := (firstURL (entries (heap s) q), p0) :: rest in
  answered s l s' →
  linked l →
  length rest < fuel →
  All fuel s q = (s', Returns (foldl append None ((λ x : string * page, x.2.1) <$> l), None))
  ∧ elems (foldl append None ((λ x : string * page, x.2.1) <$> l)) = records l.*2
  ∧ requests s' = requests s ++ l.*1
  ∧ length l.*1 = S (length rest).
Proof.
  intros l Ha Hl Hfuel. split; [|split; [|split]].
  - rewrite All_unfold. by apply answered_drain; [| |apply firstURL_nonempty|].
  - unfold records. rewrite elems_appends. simpl. f_equal.
    rewrite <- !list_fmap_compose. done.
  - by apply answered_requests.
  - simpl. by rewrite length_fmap.
Qed.

Lemma answered_step `{Backend} s u cards header rest s' :
  (fetchCards s u).2 = (cards, header, None) →
  answered (fetchCards s u).1 rest s' →
  answered s ((u, (cards, header)) :: rest) s'.
Proof.
  intros Hf Hrest. apply (answered_cons _ _ _ _ (fetchCards s u).1); [|done].
  rewrite <- Hf. by destruct (fetchCards s u).
Qed.

Lemma All_follows_links_witness :
  let s := Mock.start ∅ Mock.three_pages in
  let p1 : page := (Some [Some "Opt"; Some "Shock"],
                    {[ "Link" := [formatLink [("https://h/p2", "next")]] ]}) in
  let p2 : page := (Some [],
                    {[ "Link" := [formatLink [("https://h/p1", "prev");
                                              ("https://h/p3", "next")]] ]}) in
  let p3 : page := (Some [Some "Duress"], {[ "Total-Count" := ["3"] ]}) in
  let rest := [("https://h/p2", p2); ("https://h/p3", p3)] in
  let l := (firstURL (entries (heap s) Mock.q1), p1) :: rest in
  ∃ s',
    answered s l s' ∧ linked l
    ∧ All 3 s Mock.q1 = (s', Returns (Some [Some "Opt"; Some "Shock"; Some "Duress"], None))
    ∧ requests s' = [firstURL ∅; "https://h/p2"; "https://h/p3"].
Proof.
  intros s p1 p2 p3 rest l.
  set (s1 := (fetchCards s (firstURL ∅)).1).
  set (s2 := (fetchCards s1 "https://h/p2").1).
  set (s3 := (fetchCards s2 "https://h/p3").1).
  assert (answered s l s3) as Ha.
  { unfold l, rest, p1, p2, p3.
    apply (answered_step (H := Mock.backend)); [vm_compute; reflexivity|].
    apply (answered_step (H := Mock.backend)); [vm_compute; reflexivity|].
    apply (answered_step (H := Mock.backend)); [vm_compute; reflexivity|].
    apply answered_nil. }
  assert (linked l) as Hl.
  { split; [done|]. split.
    { exists [("https://h/p2", "next")]. split; [split|reflexivity].
      - by exists [].
      - by repeat constructor. }
    split; [done|]. split.
    { exists [("https://h/p1", "prev"); ("https://h/p3", "next")].
      split; [split|reflexivity].
      - by exists [].
      - by repeat constructor. }
    by left. }
  exists s3. split; [exact Ha|]. split; [exact Hl|].
  destruct (All_follows_links s Mock.q1 p1 rest s3 3 Ha Hl) as (HAll & _ & Hr & _).
  { simpl. lia. }
  split; [|rewrite Hr; reflexivity].
  rewrite HAll. f_equal.
Defined.

(** A first page whose [Link] header carries a [next] entry with an empty
    URL, followed by a page without [Link] header: [All] makes one request
    and returns the records of the first page only. *)
Lemma All_stops_at_empty_next :
  let s := Mock.start ∅ Mock.empty_next in
  let p1 : page := (Some [Some "Opt"; Some "Shock"], {[ "Link" := [Mock.next ""] ]}) in
  let p2 : page := (Some [Some "Duress"], ∅) in
  (∃ s' u', served s (firstURL (entries (heap s) Mock.q1)) [p1; p2] s' u')
  ∧ nextURLs (Mock.next "") = [""]
  ∧ is_Some (lastNext p1.2)
  ∧ lastNext p2.2 = None
  ∧ (∀ fuel, 0 < fuel →
       (All fuel s Mock.q1).2 = Returns (Some [Some "Opt"; Some "Shock"], None)
       ∧ requests (All fuel s Mock.q1).1 = [firstURL ∅])
  ∧ records [p1; p2] = [Some "Opt"; Some "Shock"; Some "Duress"].
Proof.
  intros s p1 p2.
  split.
  { exists (fetchCards (fetchCards s (firstURL ∅)).1 "").1, "". unfold p1, p2.
    apply (served_step (H := Mock.backend)); [vm_compute; reflexivity|].
    apply (served_step (H := Mock.backend)); [vm_compute; reflexivity|].
    apply served_nil. }
  split; [vm_compute; reflexivity|].
  split; [by eexists; vm_compute|].
  split; [vm_compute; reflexivity|].
  split; [|vm_compute; reflexivity].
  intros [|fuel] Hfuel; [lia|].
  rewrite All_unfold.
  assert (fetchCards s (firstURL (entries (heap s) Mock.q1))
          = ((fetchCards s (firstURL ∅)).1, (p1.1, p1.2, None))) as Hf.
  { change (firstURL (entries (heap s) Mock.q1)) with (firstURL ∅).
    rewrite (surjective_pairing (fetchCards s (firstURL ∅))) at 1.
    apply f_equal. vm_compute; reflexivity. }
  rewrite (drain_step _ _ _ _ _ _ _ "" (firstURL_nonempty _) Hf) by (vm_compute; reflexivity).
  rewrite drain_stop. split; vm_compute; reflexivity.
Qed.

(** C2. When the fetches of [All] are answered with some pages (none, or
    any number that each announce a non-empty next URL) and the fetch after
    them returns an error, [All] returns that error and the nil list. *)
Theorem All_error `{Backend} (s : state) (q : query) (pages : list page)
    (s1 : state) (u1 : string) (s' : state) (cards : slice (ptr Card)) (header : http_Header)
    (e : error) (fuel : nat) :
  served s (firstURL (entries (heap s) q)) pages s1 u1 →
  Forall (λ p : page, continues p.2) pages →
  fetchCards s1 u1 = (s', (cards, header, Some e)) →
  length pages < fuel →
  All fuel s q = (s', Returns (None, Some e)).
Proof.
  intros Hs Hc Hf Hfuel.
  destruct (served_drain _ _ _ _ _ Hs Hc (firstURL_nonempty _)) as [Hu1 Hdrain].
  rewrite All_unfold.
  replace fuel with (length pages + S (fuel - S (length pages))) by lia.
  rewrite Hdrain. by rewrite (drain_error _ _ _ _ _ _ _ _ Hu1 Hf).
Qed.

Lemma All_error_witness :
  let s := Mock.start ∅ Mock.broken_second in
  let p1 : page := (Some [Some "Opt"; Some "Shock"],
                    {[ "Link" := [Mock.next "https://h/p2"] ]}) in
  let e := TransportError "connection reset" in
  ∃ s1 s',
    served s (firstURL (entries (heap s) Mock.q1)) [p1] s1 "https://h/p2"
    ∧ Forall (λ p : page, continues p.2) [p1]
    ∧ fetchCards s1 "https://h/p2" = (s', (None, ∅, Some e))
    ∧ All 2 s Mock.q1 = (s', Returns (None, Some e))
    ∧ requests s' = [firstURL ∅; "https://h/p2"].
Proof.
  intros s p1 e.
  set (s1 := (fetchCards s (firstURL ∅)).1).
  set (s' := (fetchCards s1 "https://h/p2").1).
  assert (served s (firstURL (entries (heap s) Mock.q1)) [p1] s1 "https://h/p2") as Hs.
  { unfold p1. apply (served_step (H := Mock.backend)); [vm_compute; reflexivity|]. apply served_nil. }
  assert (Forall (λ p : page, continues p.2) [p1]) as Hc.
  { apply Forall_cons_2; [|apply Forall_nil_2].
    exists "https://h/p2". split; [vm_compute; reflexivity|done]. }
  assert (fetchCards s1 "https://h/p2" = (s', (None, ∅, Some e))) as Hf.
  { rewrite (surjective_pairing (fetchCards s1 "https://h/p2")).
    apply f_equal. vm_compute; reflexivity. }
  exists s1, s'. split; [exact Hs|]. split; [exact Hc|]. split; [exact Hf|].
  split; [|vm_compute; reflexivity].
  apply (All_error s Mock.q1 [p1] s1 "https://h/p2" s' None ∅ e 2 Hs Hc Hf).
  simpl. lia.
Defined.

(** C9. When the first [Link] value of a response has [next] entries, the
    next URL the iteration leaves is the URL of the last of them in parse
    order, however many come before it: the loop goes on with that URL, and
    when it is not empty the following request is to it. *)
Theorem last_next_entry_wins `{Backend} (header : http_Header) (v : string) (vs : list string)
    (us : list string) (u : string) :
  header !! "Link" = Some (v :: vs) →
  nextURLs v = us ++ [u] →
  nextLink header = Some u
  ∧ ∀ fuel s url acc s1 cards,
      url ≠ "" →
      fetchCards s url = (s1, (cards, header, None)) →
      drain (S fuel) s url acc = drain fuel s1 u (append acc cards)
      ∧ (u ≠ "" → fuel ≠ O →
         ∃ rest, requests (drain (S fuel) s url acc).1 = requests s ++ url :: u :: rest).
Proof.
  intros Hl Hus.
  assert (nextLink header = Some u) as Hn.
  { rewrite (nextLink_first _ v vs Hl), Hus, last_snoc. done. }
  split; [done|]. intros fuel s url acc s1 cards Hurl Hf.
  rewrite (drain_step _ _ _ _ _ _ _ u Hurl Hf Hn). split; [done|].
  intros Hu Hfuel.
  destruct (drain_first_request fuel s1 u (append acc cards)) as (rest & Hr & Hfirst).
  destruct (Hfirst Hu Hfuel) as [rest' ->]. exists rest'.
  pose proof (fetchCards_state s url) as [_ Hr1]. rewrite Hf in Hr1. simpl in Hr1.
  rewrite Hr, Hr1, <- app_assoc. done.
Qed.

Lemma last_next_entry_wins_witness :
  let v := Mock.next "https://h/a" +:+ "," +:+ Mock.prev "https://h/b" +:+ ","
             +:+ Mock.next "https://h/c" in
  let header : http_Header := {[ "Link" := [v] ]} in
  header !! "Link" = Some [v]
  ∧ nextURLs v = ["https://h/a"] ++ ["https://h/c"]
  ∧ nextLink header = Some "https://h/c".
Proof.
  intros v header.
  assert (header !! "Link" = Some [v]) as Hl by reflexivity.
  assert (nextURLs v = ["https://h/a"] ++ ["https://h/c"]) as Hus by (vm_compute; reflexivity).
  split; [exact Hl|]. split; [exact Hus|].
  apply (last_next_entry_wins (H := Mock.backend) header v [] ["https://h/a"] "https://h/c"
           Hl Hus).
Defined.

(** C10. Only the first value of the [Link] header is parsed: the next URL
    does not depend on the later values, and when the first value has no
    [next] entry the drain ends with this response as it does without any
    [Link] header, whatever the later values carry. *)
Theorem only_first_Link_value `{Backend} (header : http_Header) (v : string) (vs : list string) :
  header !! "Link" = Some (v :: vs) →
  nextLink header = nextLink (<["Link" := [v]]> header)
  ∧ (nextURLs v = [] →
     nextLink header = Some ""
     ∧ nextLink header = nextLink (delete "Link" header)
     ∧ ∀ fuel s url acc s1 cards,
         url ≠ "" →
         fetchCards s url = (s1, (cards, header, None)) →
         drain (S fuel) s url acc = (s1, Returns (append acc cards, None))).
Proof.
  intros Hl. split.
  - rewrite (nextLink_first _ v vs Hl).
    by rewrite (nextLink_first _ v []) by apply lookup_insert_eq.
  - intros Hv.
    assert (nextLink header = Some "") as Hn.
    { by rewrite (nextLink_first _ v vs Hl), Hv. }
    split; [done|]. split.
    { rewrite Hn. symmetry. apply nextLink_absent, lookup_delete_eq. }
    intros fuel s url acc s1 cards Hurl Hf.
    rewrite (drain_step _ _ _ _ _ _ _ "" Hurl Hf Hn). apply drain_stop.
Qed.

Lemma only_first_Link_value_witness :
  let v := Mock.prev "https://h/p1" in
  let vs := [Mock.next "https://h/p3"] in
  let header : http_Header := {[ "Link" := v :: vs ]} in
  header !! "Link" = Some (v :: vs)
  ∧ nextURLs v = []
  ∧ nextURLs (Mock.next "https://h/p3") = ["https://h/p3"]
  ∧ nextLink header = Some "".
Proof.
  intros v vs header.
  assert (header !! "Link" = Some (v :: vs)) as Hl by reflexivity.
  assert (nextURLs v = []) as Hv by (vm_compute; reflexivity).
  split; [exact Hl|]. split; [exact Hv|]. split; [vm_compute; reflexivity|].
  destruct (only_first_Link_value (H := Mock.backend) header v vs Hl) as [_ Hnone].
  apply (Hnone Hv).
Defined.

(** ** More on the scan of a [Link] value *)

(** X11. A match of [linkRE] has three elements, the whole match and the
    two groups, so the indices 1 and 2 that the loop reads are in range; the
    loop takes the first group as next URL when the second is [next], and
    keeps the URL it had otherwise. *)
Theorem scan_reads_groups `{Backend} (link : string) (match_ : list string) :
  regexp.FindStringSubmatch linkRE link = Some match_ →
  ∃ whole u rel,
    match_ = [whole; u; rel]
    ∧ ∀ nextURL, scan nextURL link = if decide (rel = "next") then u else nextURL.
Proof.
  intros Hm. pose proof (linkRE_match_length _ _ Hm) as Hlen.
  destruct match_ as [|whole [|u [|rel [|]]]]; try done.
  exists whole, u, rel. split; [done|]. intros nextURL.
  rewrite scan_nextEntry. unfold nextEntry, linkEntry. rewrite Hm. simpl.
  by destruct (decide (rel = "next")).
Qed.

Lemma scan_reads_groups_witness :
  let link := Mock.json " <a>; rel='prev' <b>; rel='next'" in
  regexp.FindStringSubmatch linkRE link
  = Some [Mock.json "<a>; rel='prev' <b>; rel='next'"; Mock.json "a>; rel='prev' <b"; "next"]
  ∧ scan "" link = Mock.json "a>; rel='prev' <b".
Proof.
  intros link.
  assert (regexp.FindStringSubmatch linkRE link
          = Some [Mock.json "<a>; rel='prev' <b>; rel='next'";
                  Mock.json "a>; rel='prev' <b"; "next"]) as Hm by (vm_compute; reflexivity).
  split; [exact Hm|].
  destruct (scan_reads_groups (H := Mock.backend) link _ Hm) as (whole & u & rel & Heq & Hscan).
  injection Heq as <- <- <-. apply Hscan.
Defined.

(** X12. An entry as it is written, after text without [<] and before text
    that holds neither [>] nor a double quote, is read with its URL and its
    relation name, whatever bytes the URL holds on its line: the loop takes
    the URL when the name is [next] and keeps the URL it had otherwise. A
    name that goes on after [next], as with an attribute behind the closing
    quote, is another name. *)
Theorem scan_written_entry `{Backend} (p u rel z nextURL : string) :
  occurs "<" p = false →
  one_line u → one_line rel → occurs ">" rel = false →
  occurs ">" z = false → occurs (ascii_of_nat 34) z = false →
  scan nextURL (p +:+ formatEntry u rel +:+ z)
  = if decide (rel = "next") then u else nextURL.
Proof.
  intros Hp Hu Hrel Hgt Hzgt Hzq. rewrite scan_nextEntry. unfold nextEntry.
  rewrite linkEntry_written by done. simpl. by destruct (decide (rel = "next")).
Qed.

Lemma scan_written_entry_witness :
  let titled := Mock.json "<https://h/p2>; rel='next'; title='z'" in
  scan "" (" " +:+ formatEntry "https://h/p2" "next" +:+ " ") = "https://h/p2"
  ∧ titled = "" +:+ formatEntry "https://h/p2" (Mock.json "next'; title='z") +:+ ""
  ∧ scan "https://h/p1" titled = "https://h/p1".
Proof.
  intros titled. split; [|split; [vm_compute; reflexivity|]].
  - apply (scan_written_entry (H := Mock.backend) " " "https://h/p2" "next" " " "");
      vm_compute; done.
  - apply (scan_written_entry (H := Mock.backend) "" "https://h/p2"
             (Mock.json "next'; title='z") "" "https://h/p1"); vm_compute; done.
Defined.

Lemma omap_all_None {A B} (f : A → option B) l :
  Forall (λ x, f x = None) l → omap f l = [].
Proof.
  induction 1 as [|x l Hx _ IH]; [done|]. by rewrite omap_cons_match, Hx.
Qed.

Lemma linkRE_literals : regexp.Lit "<" ∈ linkRE ∧ regexp.Lit ">" ∈ linkRE.
Proof. split; apply list_elem_of_In; vm_compute; tauto. Qed.

Lemma nextEntry_needs_brackets link :
  occurs "<" link = false ∨ occurs ">" link = false → nextEntry link = None.
Proof.
  intros Hno. unfold nextEntry, linkEntry.
  destruct linkRE_literals as [Hlt Hgt].
  destruct Hno as [Hno|Hno].
  - by rewrite (FindStringSubmatch_occurs _ _ _ Hlt Hno).
  - by rewrite (FindStringSubmatch_occurs _ _ _ Hgt Hno).
Qed.

(** X13. The value is split at every comma before the parts are matched,
    so a [next] entry whose URL holds a comma is not read: with no [>]
    before the comma and no [<] after it, the value leaves no next URL. *)
Theorem comma_in_URL_not_followed `{Backend} (header : http_Header) (u1 u2 rel : string)
    (vs : list string) :
  header !! "Link" = Some (formatEntry (u1 +:+ "," +:+ u2) rel :: vs) →
  occurs ">" u1 = false → occurs "<" u2 = false → occurs "<" rel = false →
  nextURLs (formatEntry (u1 +:+ "," +:+ u2) rel) = []
  ∧ nextLink header = Some "".
Proof.
  intros Hl Hu1 Hu2 Hrel.
  assert (nextURLs (formatEntry (u1 +:+ "," +:+ u2) rel) = []) as Hnone.
  { unfold nextURLs, formatEntry.
    replace ("<" +:+ (u1 +:+ "," +:+ u2) +:+ ">; rel=" +:+ dquote +:+ rel +:+ dquote)
      with (("<" +:+ u1) +:+ String "," (u2 +:+ ">; rel=" +:+ dquote +:+ rel +:+ dquote)).
    2:{ by rewrite !string_app_assoc. }
    rewrite Split_app. apply omap_all_None, Forall_app. split.
    - eapply Forall_impl; [apply (Split_pieces ">")|].
      + by rewrite occurs_app, Hu1.
      + intros part Hpart. apply nextEntry_needs_brackets. by right.
    - eapply Forall_impl; [apply (Split_pieces "<")|].
      + rewrite !occurs_app, Hu2, Hrel. done.
      + intros part Hpart. apply nextEntry_needs_brackets. by left. }
  split; [done|]. by rewrite (nextLink_first _ _ vs Hl), Hnone.
Qed.

Lemma comma_in_URL_not_followed_witness :
  let v := Mock.json "<https://h/p?a=1,2>; rel='next'" in
  let header : http_Header := {[ "Link" := [v] ]} in
  v = formatEntry ("https://h/p?a=1" +:+ "," +:+ "2") "next"
  ∧ header !! "Link" = Some [v]
  ∧ nextLink header = Some "".
Proof.
  intros v header.
  assert (header !! "Link" = Some [formatEntry ("https://h/p?a=1" +:+ "," +:+ "2") "next"])
    as Hl by (vm_compute; reflexivity).
  split; [vm_compute; reflexivity|]. split; [vm_compute; reflexivity|].
  apply (comma_in_URL_not_followed (H := Mock.backend) header "https://h/p?a=1" "2" "next" []
           Hl); reflexivity.
Defined.

(** ** More on the drain *)

Lemma drain_no_partial `{Backend} fuel : ∀ s u acc cards e,
  (drain fuel s u acc).2 = Returns (cards, Some e) → cards = None.
Proof.
  induction fuel as [|fuel IH]; intros s u acc cards e; simpl.
  - by destruct (decide (u = "")).
  - destruct (decide (u = "")); [done|].
    destruct (fetchCards s u) as [s1 [[cards' header] [e'|]]]; simpl.
    + by intros [= <- _].
    + destruct (nextLink header); [apply IH|done].
Qed.

Lemma drain_requests_bound `{Backend} fuel : ∀ s u acc,
  ∃ rest, requests (drain fuel s u acc).1 = requests s ++ rest ∧ length rest ≤ fuel.
Proof.
  induction fuel as [|fuel IH]; intros s u acc; simpl.
  - exists []. rewrite app_nil_r. by destruct (decide (u = "")).
  - destruct (decide (u = "")).
    { exists []. rewrite app_nil_r. split; [done|simpl; lia]. }
    pose proof (fetchCards_state s u) as [_ Hr].
    destruct (fetchCards s u) as [s1 [[cards header] [e|]]]; simpl in *.
    { exists [u]. split; [done|simpl; lia]. }
    destruct (nextLink header) as [next|]; [|exists [u]; split; [done|simpl; lia]].
    destruct (IH s1 next (append acc cards)) as (rest & Hrest & Hlen).
    exists (u :: rest). split; [|simpl; lia].
    by rewrite Hrest, Hr, <- app_assoc.
Qed.

(** X14. [All] never returns records together with an error: whenever it
    returns an error, the list it returns is nil. *)
Theorem All_no_partial_result `{Backend} (fuel : nat) (s : state) (q : query)
    (cards : slice (ptr Card)) (e : error) :
  (All fuel s q).2 = Returns (cards, Some e) → cards = None.
Proof. unfold All. apply drain_no_partial. Qed.

Lemma All_no_partial_result_witness :
  let s := Mock.start ∅ Mock.broken_second in
  (All 2 s Mock.q1).2 = Returns (None, Some (TransportError "connection reset")).
Proof.
  intros s.
  assert (∃ cards, (All 2 s Mock.q1).2
                   = Returns (cards, Some (TransportError "connection reset"))) as [cards Hr].
  { eexists. vm_compute. reflexivity. }
  rewrite Hr. by rewrite (All_no_partial_result 2 s Mock.q1 cards _ Hr).
Defined.

(** X15. With at least one iteration, [All] always makes a first request,
    to the URL that encodes the entries of the query and nothing else (no
    [page], [pageSize] or [random] that the query does not hold); it makes
    at most one request per iteration and leaves the earlier requests as
    they were. *)
Theorem All_first_request `{Backend} (fuel : nat) (s : state) (q : query) :
  let m := entries (heap s) q in
  0 < fuel →
  (∃ rest, requests (All fuel s q).1
           = requests s ++ (queryURL +:+ "cards?" +:+ url.Encode (params m)) :: rest
           ∧ length rest < fuel)
  ∧ ∀ k v, (k, v) ∈ url.pairs (params m) ↔ m !! k = Some v.
Proof.
  intros m Hfuel. split; [|intros k v; apply params_pairs].
  rewrite All_unfold. fold m. change (firstURL m) with (queryURL +:+ "cards?" +:+ url.Encode (params m)).
  set (u := queryURL +:+ "cards?" +:+ url.Encode (params m)).
  destruct (drain_first_request fuel s u None) as (rest & Hr & Hfirst).
  destruct (Hfirst (firstURL_nonempty m) ltac:(lia)) as [rest' ->].
  exists rest'. split; [done|].
  destruct (drain_requests_bound fuel s u None) as (rest2 & Hr2 & Hlen).
  rewrite Hr in Hr2. apply app_inv_head in Hr2. subst rest2. simpl in Hlen. lia.
Qed.

Lemma All_first_request_witness :
  let m : gmap string string := {[ "set" := "KLD" ]} in
  let s := Mock.start m [] in
  0 < 3
  ∧ requests (All 3 s Mock.q1).1 = ["https://api.magicthegathering.io/v1/cards?set=KLD"]
  ∧ (("page", "1") ∉ url.pairs (params m)).
Proof.
  intros m s. split; [lia|].
  destruct (All_first_request 3 s Mock.q1) as [(rest & Hr & Hlen) Hp]; [lia|].
  change (entries (heap s) Mock.q1) with m in Hr, Hp. split.
  - vm_compute. reflexivity.
  - intros Hin. destruct (Hp "page" "1") as [Hfwd _]. discriminate (Hfwd Hin).
Defined.

(** X16. A response that carries a [Link] header without any value makes
    [All] panic, after the request and before the records of that page are
    added: the loop indexes the first value without looking at the length
    of the list. *)
Theorem All_panics_on_empty_Link `{Backend} (s : state) (q : query) (pages : list page)
    (s1 : state) (u1 : string) (s' : state) (cards : slice (ptr Card))
    (header : http_Header) (fuel : nat) :
  served s (firstURL (entries (heap s) q)) pages s1 u1 →
  Forall (λ p : page, continues p.2) pages →
  fetchCards s1 u1 = (s', (cards, header, None)) →
  header !! "Link" = Some [] →
  length pages < fuel →
  All fuel s q = (s', Panics).
Proof.
  intros Hs Hc Hf Hl Hfuel.
  destruct (served_drain _ _ _ _ _ Hs Hc (firstURL_nonempty _)) as [Hu1 Hdrain].
  rewrite All_unfold.
  replace fuel with (length pages + S (fuel - S (length pages))) by lia.
  rewrite Hdrain. simpl. rewrite decide_False by done. rewrite Hf.
  unfold nextLink. by rewrite Hl.
Qed.

Lemma All_panics_on_empty_Link_witness :
  let s := Mock.start ∅ (Mock.one_page (firstURL ∅) [("Link", [])] Mock.page1) in
  let header : http_Header := {[ "Link" := [] ]} in
  (fetchCards s (firstURL ∅)).2 = (Some [Some "Opt"; Some "Shock"], header, None)
  ∧ header !! "Link" = Some []
  ∧ (All 1 s Mock.q1).2 = Panics.
Proof.
  intros s header.
  assert ((fetchCards s (firstURL ∅)).2 = (Some [Some "Opt"; Some "Shock"], header, None))
    as Hf by (vm_compute; reflexivity).
  split; [exact Hf|]. split; [reflexivity|].
  rewrite (All_panics_on_empty_Link s Mock.q1 [] s (firstURL ∅) (fetchCards s (firstURL ∅)).1
             (Some [Some "Opt"; Some "Shock"]) header 1).
  - reflexivity.
  - apply served_nil.
  - apply Forall_nil_2.
  - rewrite (surjective_pairing (fetchCards s (firstURL ∅))) at 1.
    apply f_equal. exact Hf.
  - reflexivity.
  - simpl. lia.
Defined.

Lemma appends_nil_or_records {A} (l : list (slice A)) : ∀ acc,
  foldl append acc l
  = match concat (elems <$> l) with
    | [] => acc
    | rs => Some (elems acc ++ rs)
    end.
Proof.
  induction l as [|t l IH]; intros acc; [done|].
  cbn [foldl fmap list_fmap concat]. rewrite IH.
  destruct (concat (elems <$> l)) as [|y ys].
  - rewrite app_nil_r. unfold append. by destruct (elems t).
  - rewrite elems_append, <- app_assoc. by destruct (elems t).
Qed.

(** X17. The list [All] returns after a drain is nil exactly when the pages
    hold no record at all, empty lists included; otherwise it holds the
    records of the pages in page order. *)
Theorem All_nil_without_records `{Backend} (s : state) (q : query) (p0 : page)
    (rest : list (string * page)) (s' : state) (fuel : nat) :
  let l := (firstURL (entries (heap s) q), p0) :: rest in
  answered s l s' →
  linked l →
  length rest < fuel →
  All fuel s q
  = (s', Returns (match records l.*2 with [] => None | rs => Some rs end, None)).
Proof.
  intros l Ha Hl Hfuel. rewrite All_unfold.
  rewrite (answered_drain rest s _ p0 s' None fuel Ha Hl (firstURL_nonempty _) Hfuel).
  rewrite appends_nil_or_records. unfold records.
  rewrite <- !list_fmap_compose. done.
Qed.

Lemma All_nil_without_records_witness :
  let s := Mock.start ∅ (Mock.one_page (firstURL ∅) [] Mock.page2) in
  let p0 : page := (Some [], ∅) in
  let l := [(firstURL (entries (heap s) Mock.q1), p0)] in
  ∃ s', answered s l s' ∧ linked l ∧ All 1 s Mock.q1 = (s', Returns (None, None)).
Proof.
  intros s p0 l. exists (fetchCards s (firstURL ∅)).1.
  assert (answered s l (fetchCards s (firstURL ∅)).1) as Ha.
  { unfold l, p0. apply (answered_step (H := Mock.backend)); [vm_compute; reflexivity|].
    apply answered_nil. }
  assert (linked l) as Hl by (by left).
  split; [exact Ha|]. split; [exact Hl|].
  apply (All_nil_without_records s Mock.q1 p0 [] _ 1 Ha Hl). simpl. lia.
Defined.

(** ** A copy fetches what the original does *)

Lemma fetchCards_with_heap `{Backend} h s u :
  fetchCards (with_heap h s) u = (with_heap h (fetchCards s u).1, (fetchCards s u).2).
Proof.
  unfold fetchCards, with_heap. simpl.
  destruct (http_Get (world s) u) as [w [resp|e]]; [|done].
  destruct (checkError resp); [done|].
  by destruct (decodeCards (Body resp)) as [cards [e|]].
Qed.

Lemma drain_with_heap `{Backend} h fuel : ∀ s u acc,
  drain fuel (with_heap h s) u acc
  = (with_heap h (drain fuel s u acc).1, (drain fuel s u acc).2).
Proof.
  induction fuel as [|fuel IH]; intros s u acc; simpl.
  - by destruct (decide (u = "")).
  - destruct (decide (u = "")); [done|]. rewrite fetchCards_with_heap.
    destruct (fetchCards s u) as [s1 [[cards header] [e|]]]; simpl; [done|].
    destruct (nextLink header); [apply IH|done].
Qed.

(** X18. A copy fetches what its original does: with the store that [Copy]
    leaves, [All], [PageS] and [Random] on the copy make the requests and
    return the results that they make and return on the original. *)
Theorem Copy_same_fetch `{Backend} (s : state) (q : query) :
  let '(h1, r) := Copy (heap s) q in
  (∀ fuel, (All fuel (with_heap h1 s) r).2 = (All fuel s q).2
           ∧ requests (All fuel (with_heap h1 s) r).1 = requests (All fuel s q).1)
  ∧ (∀ pageNum pageSize,
       (PageS (with_heap h1 s) r pageNum pageSize).2 = (PageS s q pageNum pageSize).2
       ∧ requests (PageS (with_heap h1 s) r pageNum pageSize).1
         = requests (PageS s q pageNum pageSize).1)
  ∧ (∀ count, (Random (with_heap h1 s) r count).2 = (Random s q count).2
              ∧ requests (Random (with_heap h1 s) r count).1 = requests (Random s q count).1).
Proof.
  unfold Copy. rewrite copy_loop. set (r := new (heap s)). set (h1 := <[r := _]> (heap s)).
  assert (entries (heap (with_heap h1 s)) r = entries (heap s) q) as Hentries.
  { simpl. unfold entries at 1. unfold h1. by rewrite lookup_insert_eq. }
  split; [|split].
  - intros fuel. rewrite !All_unfold, Hentries, drain_with_heap. done.
  - intros pageNum pageSize. rewrite !PageS_unfold, Hentries, fetchCards_with_heap.
    destruct (fetchCards s _) as [s1 [[cards header] [e|]]]; [done|]. simpl.
    destruct (header !! "Total-Count") as [[|t ts]|]; try done.
    by destruct (Atoi t) as [n [e|]].
  - intros count. rewrite !Random_unfold, Hentries, fetchCards_with_heap.
    by destruct (fetchCards s _) as [s1 [[cards header] err]].
Qed.
